(** * karma-edge-chromium-launcher: flag builder, path resolver and
      process lifecycle of [index.js], as a shallow embedding.

    JavaScript strings are sequences of UTF-16 code units; they are modelled
    as [list N].  The module's closures over mutable variables become
    explicit state, the caller's flag array lives in a store of arrays
    addressed by reference, and the services of the platform ([fs], [path],
    [which], the environment) are parameters of the functions that use
    them. *)

From Stdlib Require Import NArith ZArith Lia.
From stdpp Require Import gmap strings list.

Local Open Scope N_scope.

(** ** JavaScript strings *)

Definition jsstring := list N.

(** The code units of an ASCII literal. *)
Definition js (s : string) : jsstring :=
  map Ascii.N_of_ascii (String.list_ascii_of_string s).

(** A value that may be a string, [null] or [undefined]. *)
Inductive jsval :=
  | JNull
  | JUndefined
  | JStr (s : jsstring).

(** [!v] is false exactly for a non-empty string. *)
Definition truthy (v : jsval) : bool :=
  match v with
  | JStr (_ :: _) => true
  | _ => false
  end.

(** [s.startsWith(p)], the test behind every literal match below. *)
Fixpoint starts_with (p s : jsstring) : bool :=
  match p, s with
  | [], _ => true
  | a :: p', b :: s' => (a =? b) && starts_with p' s'
  | _ :: _, [] => false
  end.

(** [s.indexOf(pat)]: the first position where [pat] occurs, or [-1]. *)
Fixpoint indexOf (pat s : jsstring) : Z :=
  if starts_with pat s then 0%Z
  else match s with
       | [] => (-1)%Z
       | _ :: s' =>
           let r := indexOf pat s' in
           if (r =? -1)%Z then (-1)%Z else (r + 1)%Z
       end.

(** [s.replace(re, rep)] for a regular expression [re] that is a plain
    literal [pat] without the [g] flag: the leftmost occurrence only. *)
Fixpoint replace_first (pat rep s : jsstring) : jsstring :=
  if starts_with pat s then rep ++ drop (length pat) s
  else match s with
       | [] => []
       | c :: s' => c :: replace_first pat rep s'
       end.

(** [s.replace(/q$/, '')]: without the [m] flag [$] is the end of input, so
    the only possible match is the last code unit. *)
Fixpoint strip_end (q : N) (s : jsstring) : jsstring :=
  match s with
  | [] => []
  | c :: s' =>
      match s' with
      | [] => if c =? q then [] else [c]
      | _ :: _ => c :: strip_end q s'
      end
  end.

(** ** Flag builder *)

Definition js_flags_prefix : jsstring := Eval cbv in js "--js-flags=".

Definition single_quote : N := 39.
Definition double_quote : N := 34.

(** The character class of the regular expression: a single or a double
    quote. *)
Definition is_quote (c : N) : bool := (c =? single_quote) || (c =? double_quote).

(** [isJSFlags]: [flag.indexOf('--js-flags=') === 0]. *)
Definition isJSFlags (flag : jsstring) : bool :=
  (indexOf js_flags_prefix flag =? 0)%Z.

(** The regular expression of [sanitizeJSFlags] (the prefix, then a
    captured single or double quote) tried at the head of [s]: the captured
    quote when it matches there. *)
Definition js_flags_quote_here (s : jsstring) : option N :=
  if starts_with js_flags_prefix s then
    match drop (length js_flags_prefix) s with
    | q :: _ => if is_quote q then Some q else None
    | [] => None
    end
  else None.

(** [exec] of that expression on [flag]: the capture group of the leftmost
    match; the expression is not anchored. *)
Fixpoint exec_js_flags_quote (s : jsstring) : option N :=
  match js_flags_quote_here s with
  | Some q => Some q
  | None => match s with
            | [] => None
            | _ :: s' => exec_js_flags_quote s'
            end
  end.

(** [sanitizeJSFlags]. *)
Definition sanitizeJSFlags (flag : jsstring) : jsstring :=
  match exec_js_flags_quote flag with
  | None => flag
  | Some escapeChar =>
      let startExp := js_flags_prefix ++ [escapeChar] in
      strip_end escapeChar (replace_first startExp js_flags_prefix flag)
  end.

(** *** The store of flag arrays

    [args.flags] is an array object of the caller; [const flags = args.flags
    || []] makes the launcher's [flags] the same object whenever the caller
    supplied one.  Arrays are therefore kept in a store and named by
    reference. *)

Abbreviation loc := positive (only parsing).
Abbreviation store := (gmap positive (list jsstring)) (only parsing).

(** The array a reference names (a reference is never dangling in a run of
    the program; the empty array stands for that case). *)
Definition deref (σ : store) (r : loc) : list jsstring :=
  default [] (σ !! r).

(** A stateful computation over the store, as [parent.call(this, url)] is. *)
Definition M (A : Type) : Type := store → A * store.

Definition ret {A} (a : A) : M A := λ σ, (a, σ).

Definition bind {A B} (m : M A) (k : A → M B) : M B :=
  λ σ, let '(a, σ') := m σ in k a σ'.

Notation "'let*' x ':=' m 'in' k" := (bind m (λ x, k))
  (at level 10, x name, m at level 100, k at level 200).

(** One step of the [forEach] of [_getOptions]: the callback at index [i],
    with its assignment [flags[i] = sanitizeJSFlags(flag)]. *)
Definition sanitize_at (fl : list jsstring) (i : nat) : list jsstring :=
  match fl !! i with
  | Some flag => if isJSFlags flag then <[i := sanitizeJSFlags flag]> fl else fl
  | None => fl
  end.

(** [flags.forEach((flag, i) => ...)]: the indices below the length the array
    had when the loop started, in order. *)
Definition forEach_sanitize (fl : list jsstring) : list jsstring :=
  foldl sanitize_at fl (seq 0 (length fl)).

Definition edge_cli_options : list jsstring :=
  [ js "--enable-automation";
    js "--no-default-browser-check";
    js "--no-first-run";
    js "--disable-default-apps";
    js "--disable-popup-blocking";
    js "--disable-translate";
    js "--disable-background-timer-throttling";
    js "--disable-renderer-backgrounding";
    js "--disable-device-discovery-notifications" ].

(** [EdgeBrowser]'s [_getOptions], for a launcher whose [flags] is the array
    at [r]: it rewrites that array in place and returns the fixed options
    followed by its contents. *)
Definition _getOptions (r : loc) : M (list jsstring) :=
  λ σ, let fl := forEach_sanitize (deref σ r) in
       (edge_cli_options ++ fl, <[r := fl]> σ).

Definition remote_debugging_port : jsstring := js "--remote-debugging-port=".

(** [(flag || '').indexOf('--remote-debugging-port=') !== -1]; the elements
    are strings here, for which [flag || ''] is [flag]. *)
Definition isRemoteDebuggingFlag (flag : jsstring) : bool :=
  negb (indexOf remote_debugging_port flag =? -1)%Z.

Definition headless_flags : list jsstring :=
  [ js "--headless"; js "--disable-gpu"; js "--disable-dev-shm-usage" ].

(** [getHeadlessOptions(url, args, parent)]. *)
Definition getHeadlessOptions (isWsl : bool) (parent : M (list jsstring))
  : M (list jsstring) :=
  let* opts := parent in
  let mergedArgs := opts ++ headless_flags in
  let mergedArgs := if isWsl then mergedArgs ++ [js "--no-sandbox"] else mergedArgs in
  ret (if existsb isRemoteDebuggingFlag mergedArgs
       then mergedArgs
       else mergedArgs ++ [js "--remote-debugging-port=9222"]).

Definition customFlags : jsstring := js "--nocrankshaft --noopt".

(** The callback of the [forEach] of [getCanaryOptions]: every flag that
    passes [isJSFlags] overwrites [augmentedFlags]. *)
Definition augment (augmentedFlags : jsval) (flag : jsstring) : jsval :=
  if isJSFlags flag
  then JStr (sanitizeJSFlags flag ++ js " " ++ customFlags)
  else augmentedFlags.

(** [getCanaryOptions(url, args, parent)]; [args_flags] is [args.flags],
    absent or a reference.  The flags are read before [parent] runs. *)
Definition getCanaryOptions (args_flags : option loc) (parent : M (list jsstring))
  : M (list jsstring) :=
  λ σ,
    let flags := from_option (deref σ) [] args_flags in
    let augmentedFlags := foldl augment JUndefined flags in
    (let* opts := parent in
     ret (opts ++ [match augmentedFlags with
                   | JStr (c :: a) => c :: a
                   | _ => js_flags_prefix ++ customFlags
                   end])) σ.

(** *** The variant registry *)

Inductive variant :=
  | Edge | EdgeHeadless
  | EdgeBeta | EdgeBetaHeadless
  | EdgeDev | EdgeDevHeadless
  | EdgeCanary | EdgeCanaryHeadless.

(** What the constructors leave in [this._getOptions]: [flags] is the
    launcher's array, [args_flags] the [flags] member of the [args] the
    constructor received. *)
Definition getOptions (isWsl : bool) (v : variant) (args_flags : option loc)
  (flags : loc) : M (list jsstring) :=
  match v with
  | Edge | EdgeBeta | EdgeDev => _getOptions flags
  | EdgeHeadless | EdgeBetaHeadless | EdgeDevHeadless =>
      getHeadlessOptions isWsl (_getOptions flags)
  | EdgeCanary => getCanaryOptions args_flags (_getOptions flags)
  | EdgeCanaryHeadless =>
      getHeadlessOptions isWsl (getCanaryOptions args_flags (_getOptions flags))
  end.

(** [const flags = args.flags || []]: the caller's array itself, or a new
    empty one. *)
Definition bind_flags (args_flags : option loc) : M loc :=
  λ σ, match args_flags with
       | Some r => (r, σ)
       | None => let r := fresh (dom σ) in (r, <[r := []]> σ)
       end.

(** ** Path resolver *)

Inductive platform := Linux | Darwin | Win32 | OtherPlatform.

Section PathResolver.

(** [process.platform], [process.env] (a variable is a string or
    [undefined]), [path.join] on string arguments, whether
    [fs.accessSync] returns rather than throws, and whether [which.sync]
    finds a command (its resolved path) or not. *)
Variable process_platform : platform.
Variable process_env : string → option jsstring.
Variable path_join : list jsstring → jsstring.
Variable accessSync : jsstring → bool.
Variable which : jsstring → option jsstring.

Definition env (name : string) : jsval :=
  from_option JStr JUndefined (process_env name).

(** [which.sync(cmd, { nothrow: true })]: the path, or [null]. *)
Definition which_sync_nothrow (cmd : jsstring) : jsval :=
  from_option JStr JNull (which cmd).

(** The loop of [getBin]: [which.sync] throws when the command is not
    found and the empty [catch] moves on; [bin] stays [undefined] when
    nothing is found. *)
Fixpoint getBin_loop (commands : list jsstring) : jsval :=
  match commands with
  | [] => JUndefined
  | c :: rest =>
      match which c with
      | Some p => if truthy (JStr p) then JStr c else getBin_loop rest
      | None => getBin_loop rest
      end
  end.

Definition getBin (commands : list jsstring) : jsval :=
  match process_platform with
  | Linux => getBin_loop commands
  | _ => JNull
  end.

Definition edge_suffix (edgeDirName : jsstring) : jsstring :=
  js "Microsoft\" ++ edgeDirName ++ js "\Application\msedge.exe".

(** The loop of [getEdgeExe] from index [i] on, with the current value of
    [windowsEdgeDirectory].  [path.join] throws a [TypeError] on a prefix
    that is not a string, before the assignment; [accessSync] throws on a
    path that does not exist; both land in the [catch], which only records
    the error. *)
Fixpoint getEdgeExe_loop (suffix : jsstring) (prefixes : list jsval)
  (windowsEdgeDirectory : jsval) : jsval :=
  match prefixes with
  | [] => windowsEdgeDirectory
  | JStr prefix :: rest =>
      let candidate := path_join [prefix; suffix] in
      if accessSync candidate then JStr candidate
      else getEdgeExe_loop suffix rest (JStr candidate)
  | _ :: rest => getEdgeExe_loop suffix rest windowsEdgeDirectory
  end.

Definition getEdgeExe (edgeDirName : jsstring) : jsval :=
  match process_platform with
  | Win32 =>
      getEdgeExe_loop (edge_suffix edgeDirName)
        [env "LOCALAPPDATA"; env "PROGRAMFILES"; env "PROGRAMFILES(X86)"]
        JUndefined
  | _ => JNull
  end.

End PathResolver.

(** ** Process launcher *)

(** The variables the [EdgeBrowser] closure shares between [_start] and the
    kill hook. *)
Record launcher := {
  windowsUsed : bool;
  browserProcessPid : option N   (* [undefined] until a sentinel is parsed *)
}.

Definition new_launcher : launcher :=
  {| windowsUsed := false; browserProcessPid := None |}.

(** What [_start] hands to the operating system: the [bash] child of
    [useWindowsWSL], with the options interpolated into its script (the two
    [wslpath] translations and the text of the script are left out), or the
    host's [_execCommand] of [useNormal] with its argument list. *)
Inductive spawned :=
  | SpawnBridge (options : list jsstring)
  | ExecNative (command : jsval) (args : list jsstring).

Definition includes (x : jsstring) (l : list jsstring) : bool :=
  existsb (λ y, bool_decide (y = x)) l.

Section Start.

Variable isWsl : bool.
Variable which : jsstring → option jsstring.
Variable process_env : string → option jsstring.
(** [this.DEFAULT_CMD.linux], [this._getCommand()], [this._getOptions],
    and the user data directory. *)
Variable DEFAULT_CMD_linux : jsval.
Variable getCommand : jsval.
Variable this_getOptions : M (list jsstring).
Variable userDataDir : jsstring.

Definition useWindowsWSL (l : launcher) : M (launcher * spawned) :=
  let* opts := this_getOptions in
  ret ({| windowsUsed := true; browserProcessPid := browserProcessPid l |},
       SpawnBridge opts).

Definition useNormal (command : jsval) (url : jsstring) (l : launcher)
  : M (launcher * spawned) :=
  let* opts := this_getOptions in
  ret (l, ExecNative command
            ([url; js "--user-data-dir=" ++ userDataDir] ++ opts)).

(** [!this.DEFAULT_CMD.linux || !which.sync(this.DEFAULT_CMD.linux, ...)];
    [which] is only reached with a non-empty string. *)
Definition linux_not_installed : bool :=
  negb (truthy DEFAULT_CMD_linux)
  || match DEFAULT_CMD_linux with
     | JStr cmd => negb (truthy (which_sync_nothrow which cmd))
     | _ => true
     end.

(** [_start(url)] up to the spawn. *)
Definition _start (url : jsstring) (l : launcher) : M (launcher * spawned) :=
  if isWsl then
    if linux_not_installed then useWindowsWSL l
    else
      let* opts := this_getOptions in
      if negb (includes (js "--headless") opts)
         && negb (truthy (env process_env "DISPLAY"))
      then useWindowsWSL l
      else useNormal DEFAULT_CMD_linux url l
  else useNormal getCommand url l.

End Start.

(** *** The error stream *)

(** [new StringDecoder('utf8').write(buf)] on a new decoder: the bytes are
    decoded as UTF-8, every ill-formed sequence becomes U+FFFD, and the
    bytes of a sequence that the buffer leaves incomplete stay inside the
    decoder.  [u_needed] counts the continuation bytes still expected,
    [u_lower] and [u_upper] bound the next one, [u_cp] holds the payload
    bits read so far (the shifts and masks of the payload are written as
    the multiplications and subtractions they amount to). *)
Record utf8_state := {
  u_cp : N;
  u_needed : nat;
  u_lower : N;
  u_upper : N
}.

Definition utf8_init : utf8_state :=
  {| u_cp := 0; u_needed := 0; u_lower := 0x80; u_upper := 0xBF |}.

Definition in_range (lo hi b : N) : bool := (lo <=? b) && (b <=? hi).

(** A byte read when no sequence is open. *)
Definition utf8_lead (b : N) : list N * utf8_state :=
  if b <=? 0x7F then ([b], utf8_init)
  else if in_range 0xC2 0xDF b then
    ([], {| u_cp := b - 0xC0; u_needed := 1; u_lower := 0x80; u_upper := 0xBF |})
  else if in_range 0xE0 0xEF b then
    ([], {| u_cp := b - 0xE0; u_needed := 2;
            u_lower := if b =? 0xE0 then 0xA0 else 0x80;
            u_upper := if b =? 0xED then 0x9F else 0xBF |})
  else if in_range 0xF0 0xF4 b then
    ([], {| u_cp := b - 0xF0; u_needed := 3;
            u_lower := if b =? 0xF0 then 0x90 else 0x80;
            u_upper := if b =? 0xF4 then 0x8F else 0xBF |})
  else ([0xFFFD], utf8_init).

(** One byte: a continuation byte in range extends the open sequence; any
    other byte closes it with U+FFFD and is read again as a first byte. *)
Definition utf8_step (st : utf8_state) (b : N) : list N * utf8_state :=
  match u_needed st with
  | O => utf8_lead b
  | S n =>
      if in_range (u_lower st) (u_upper st) b then
        let cp := 64 * u_cp st + (b - 0x80) in
        match n with
        | O => ([cp], utf8_init)
        | S _ => ([], {| u_cp := cp; u_needed := n; u_lower := 0x80; u_upper := 0xBF |})
        end
      else
        let '(out, st') := utf8_lead b in (0xFFFD :: out, st')
  end.

Fixpoint utf8_run (st : utf8_state) (bytes : list N) : list N :=
  match bytes with
  | [] => []
  | b :: rest => let '(out, st') := utf8_step st b in out ++ utf8_run st' rest
  end.

(** The UTF-16 code units of a code point. *)
Definition utf16_units (cp : N) : jsstring :=
  if cp <? 0x10000 then [cp]
  else let c := cp - 0x10000 in
       [0xD800 + N.shiftr c 10; 0xDC00 + N.land c 0x3FF].

Definition decoder_write (buf : list N) : jsstring :=
  concat (map utf16_units (utf8_run utf8_init buf)).

(** The class [\s] of a regular expression without the [u] flag. *)
Definition is_space (c : N) : bool :=
  in_range 9 13 c || (c =? 32) || (c =? 0xA0) || (c =? 0x1680)
  || in_range 0x2000 0x200A c || (c =? 0x2028) || (c =? 0x2029)
  || (c =? 0x202F) || (c =? 0x205F) || (c =? 0x3000) || (c =? 0xFEFF).

(** The class [\d]. *)
Definition is_digit (c : N) : bool := in_range 48 57 c.

Definition sentinel_marker : jsstring := js "BROWSERBROWSERBROWSERBROWSER".
Definition debug_me_at : jsstring := js "debug me @ ".

Fixpoint take_while (f : N → bool) (s : jsstring) : jsstring :=
  match s with
  | c :: s' => if f c then c :: take_while f s' else []
  | [] => []
  end.

Fixpoint drop_while (f : N → bool) (s : jsstring) : jsstring :=
  match s with
  | c :: s' => if f c then drop_while f s' else s
  | [] => []
  end.

(** The sentinel expression (the marker, [\s+], [debug me @ ], then the
    group [(\d+)]) tried at the head of [s]: the digits captured.  Both
    repetitions are greedy and what follows [\s+] is not a space, so no
    shorter repetition can match where the longest fails. *)
Definition sentinel_here (s : jsstring) : option jsstring :=
  if starts_with sentinel_marker s then
    match drop (length sentinel_marker) s with
    | c :: rest =>
        if is_space c then
          let rest := drop_while is_space rest in
          if starts_with debug_me_at rest then
            match take_while is_digit (drop (length debug_me_at) rest) with
            | [] => None
            | digits => Some digits
            end
          else None
        else None
    | [] => None
    end
  else None.

(** [errString.match(...)] without the [g] flag: the group of the leftmost
    match. *)
Fixpoint match_sentinel (s : jsstring) : option jsstring :=
  match sentinel_here s with
  | Some digits => Some digits
  | None => match s with
            | [] => None
            | _ :: s' => match_sentinel s'
            end
  end.

(** The integer a string of decimal digits denotes. *)
Definition decimal_value (digits : jsstring) : N :=
  foldl (λ n d, 10 * n + (d - 48)) 0 digits.

(** A JavaScript number is a double: an integer is kept as it is up to 53
    significant bits and rounded to 53 bits, ties to even, beyond. *)
Definition round_to_double (n : N) : N :=
  let bits := N.size n in
  if bits <=? 53 then n
  else
    let shift := bits - 53 in
    let q := N.shiftr n shift in
    let rest := n - N.shiftl q shift in
    let half := N.shiftl 1 (shift - 1) in
    let q := if (half <? rest) || ((rest =? half) && N.odd q) then q + 1 else q in
    N.shiftl q shift.

(** [parseInt(digits, 10)] on a string of decimal digits: the double nearest
    to the integer they denote.  (The language lets an implementation read
    the digits after the twentieth as zeros, and a run of more than 308
    digits can exceed the largest double, for which the source gets
    [Infinity]; statements that name the number keep to runs of at most 20
    digits.) *)
Definition parseInt (digits : jsstring) : N :=
  round_to_double (decimal_value digits).

(** A chunk of the error stream: a string when the stream has an encoding
    set, a [Buffer] of bytes otherwise. *)
Inductive chunk :=
  | ChunkString (s : jsstring)
  | ChunkBuffer (bytes : list N).

(** The listener [runningProcess.stderr.on('data', ...)]: one call per
    chunk, each with a decoder of its own. *)
Definition on_stderr_data (l : launcher) (errBuff : chunk) : launcher :=
  let errString :=
    match errBuff with
    | ChunkString s => s
    | ChunkBuffer bytes => decoder_write bytes
    end in
  match match_sentinel errString with
  | Some digits =>
      {| windowsUsed := windowsUsed l; browserProcessPid := Some (parseInt digits) |}
  | None => l
  end.

(** The listener run over the successive chunks of a stream. *)
Definition receive (l : launcher) (chunks : list chunk) : launcher :=
  foldl on_stderr_data l chunks.

(** ** Lifecycle controller *)

(** A termination call of the kill hook: [exec] of
    [Taskkill.exe /PID <pid> /F /FI ...], or [process.kill(pid)]. *)
Inductive termination :=
  | Taskkill (pid : N)
  | ProcessKill (pid : N).

(** How a statement completes. *)
Inductive completion :=
  | Normal
  | Throw.

(** [try { body } catch (e) { }] *)
Definition try_catch_ignore (body : completion) : completion :=
  match body with
  | Normal => Normal
  | Throw => Normal
  end.

(** What a run of the kill hook leaves behind: how it completed, the
    termination calls it made, the callbacks it invoked itself, and the
    queue of [process.nextTick]. *)
Record kill_run {callback : Type} := {
  k_completion : completion;
  k_terminations : list termination;
  k_invoked : list callback;
  k_nextTick : list callback
}.
Arguments kill_run : clear implicits.

Section Kill.

Context {callback : Type}.
(** Whether a termination call throws. *)
Variable throws : termination → bool.

(** [if (browserProcessPid)]: a number is truthy unless it is zero. *)
Definition pid_truthy (pid : option N) : bool :=
  match pid with
  | Some n => negb (n =? 0)
  | None => false
  end.

(** The listener of the [kill] event, run with [queue] pending in
    [process.nextTick]'s queue. *)
Definition on_kill (l : launcher) (done : callback) (queue : list callback)
  : kill_run callback :=
  let call :=
    match browserProcessPid l with
    | Some pid =>
        if pid_truthy (Some pid)
        then [if windowsUsed l then Taskkill pid else ProcessKill pid]
        else []
    | None => []
    end in
  let guarded :=
    try_catch_ignore (if existsb throws call then Throw else Normal) in
  match guarded with
  | Normal =>
      {| k_completion := Normal; k_terminations := call;
         k_invoked := []; k_nextTick := queue ++ [done] |}
  | Throw =>
      {| k_completion := Throw; k_terminations := call;
         k_invoked := []; k_nextTick := queue |}
  end.

(** One scheduling tick: the queued callbacks are invoked in order. *)
Definition run_tick (queue : list callback) : list callback := queue.

End Kill.

(** ** The WSL bridge and the remaining resolvers *)

(** [s.split(sep)] for a separator of one code unit: never an empty array,
    the empty string gives one empty piece. *)
Fixpoint split_on (sep : N) (s : jsstring) : list jsstring :=
  match s with
  | [] => [[]]
  | c :: s' =>
      if c =? sep then [] :: split_on sep s'
      else match split_on sep s' with
           | piece :: pieces => (c :: piece) :: pieces
           | [] => [[c]]
           end
  end.

(** [parts.join(sep)]. *)
Fixpoint join (sep : jsstring) (parts : list jsstring) : jsstring :=
  match parts with
  | [] => []
  | p :: rest =>
      match rest with
      | [] => p
      | _ :: _ => p ++ sep ++ join sep rest
      end
  end.

(** [s.replace(re, rep)] for a regular expression with the [g] flag that
    matches single code units of a class, and a replacement without
    patterns. *)
Definition replace_all (class : N → bool) (rep s : jsstring) : jsstring :=
  flat_map (λ c, if class c then rep else [c]) s.

(** [s.trim()]: white space and line terminators, the class of [\s], are
    removed at both ends. *)
Definition trim (s : jsstring) : jsstring :=
  rev (drop_while is_space (rev (drop_while is_space s))).

Definition slash : N := 47.
Definition backslash : N := 92.
Definition colon : N := 58.
Definition open_paren : N := 40.
Definition close_paren : N := 41.

(** The first lines of [useWindowsWSL] on [this.DEFAULT_CMD.win32]: the
    command is split at the slashes, its last piece is the executable, and
    the directory is joined again with white space and parentheses
    escaped.  White space of any kind is replaced by a backslash and a
    space. *)
Definition escape_for_shell (s : jsstring) : jsstring :=
  replace_all (λ c, c =? close_paren) [backslash; close_paren]
    (replace_all (λ c, c =? open_paren) [backslash; open_paren]
       (replace_all is_space [backslash; 32] s)).

Definition commandPrepare (win32 : jsstring) : jsstring * jsstring :=
  let parts := split_on slash win32 in
  let executable := List.last parts [] in
  (escape_for_shell (join [slash] (removelast parts)), executable).

(** What a call can throw here: the [TypeError] of a method call on
    [undefined] or of [path.join] on a value that is no string, and the
    [Error] of [execSync] when the command fails. *)
Inductive exception :=
  | TypeError
  | ExecError.

(** How a call completes when it can throw. *)
Inductive outcome (A : Type) :=
  | Return (v : A)
  | Raise (e : exception).
Arguments Return {A} v.
Arguments Raise {A} e.

Section WslBridge.

(** [is-wsl], [process.platform], [process.env], [fs.existsSync],
    [fs.accessSync], [path.join] on strings, [which], and the output of the
    two [wslpath] commands for the path between their quotes. *)
Variable isWsl : bool.
Variable process_platform : platform.
Variable process_env : string → option jsstring.
Variable existsSync : jsstring → bool.
Variable accessSync : jsstring → bool.
Variable path_join : list jsstring → jsstring.
Variable which : jsstring → option jsstring.
Variable wslpath_w : jsstring → jsstring.
Variable wslpath_u : jsstring → jsstring.

(** [execSync(command)] itself: the output of the command, or nothing when
    the command fails and [execSync] throws. *)
Variable execSync : jsstring → option jsstring.

(** The class [A-Z] under the [i] flag. *)
Definition is_drive_letter (c : N) : bool :=
  in_range 65 90 c || in_range 97 122 c.

(** [windowsPath.match(re)] for the expression that anchors a letter, a
    colon and a backslash at the start: the captured letter. *)
Definition drive_of (windowsPath : jsstring) : option N :=
  match windowsPath with
  | c :: c1 :: c2 :: _ =>
      if is_drive_letter c && (c1 =? colon) && (c2 =? backslash)
      then Some c else None
  | _ => None
  end.

(** The first loop of [getAllPrefixesWsl] over the elements of [PATH], with
    the drives found so far. *)
Fixpoint collect_drives (elems : list jsstring) (drives : list N) : list N :=
  match elems with
  | [] => drives
  | pathElem :: rest =>
      if existsSync pathElem then
        match drive_of (wslpath_w pathElem) with
        | Some d =>
            if existsb (N.eqb d) drives
            then collect_drives rest drives
            else collect_drives rest (drives ++ [d])
        | None => collect_drives rest drives
        end
      else collect_drives rest drives
  end.

Definition program_files : list jsstring :=
  [js "Program Files"; js "Program Files (x86)"].

(** What [getAllPrefixesWsl] returns when it returns: [process.env.PATH] is
    a string and the two [wslpath] commands answer, [wslpath_w] and
    [wslpath_u] being their outputs. *)
Definition getAllPrefixesWsl (PATH : jsstring) : list jsstring :=
  let drives := collect_drives (split_on colon PATH) [] in
  flat_map (λ prefix,
              map (λ drive, trim (wslpath_u (drive :: js ":\" ++ prefix))) drives)
    program_files.

(** The two commands handed to [execSync]. *)
Definition wslpath_w_command (pathElem : jsstring) : jsstring :=
  js "wslpath -w " ++ [double_quote] ++ pathElem ++ [double_quote].

Definition wslpath_command (drive : N) (prefix : jsstring) : jsstring :=
  js "wslpath " ++ [double_quote] ++ drive :: js ":\" ++ prefix ++ [double_quote].

(** The run of [getAllPrefixesWsl] with the calls that can throw: the first
    loop, over the elements of [PATH]; *)
Fixpoint collect_drives_run (elems : list jsstring) (drives : list N)
  : outcome (list N) :=
  match elems with
  | [] => Return drives
  | pathElem :: rest =>
      if existsSync pathElem then
        match execSync (wslpath_w_command pathElem) with
        | Some windowsPath =>
            match drive_of windowsPath with
            | Some d =>
                if existsb (N.eqb d) drives
                then collect_drives_run rest drives
                else collect_drives_run rest (drives ++ [d])
            | None => collect_drives_run rest drives
            end
        | None => Raise ExecError
        end
      else collect_drives_run rest drives
  end.

(** the inner and the outer loop that fill [result]; *)
Fixpoint translate_drives (prefix : jsstring) (drives : list N)
  (result : list jsstring) : outcome (list jsstring) :=
  match drives with
  | [] => Return result
  | drive :: rest =>
      match execSync (wslpath_command drive prefix) with
      | Some wslPath => translate_drives prefix rest (result ++ [trim wslPath])
      | None => Raise ExecError
      end
  end.

Fixpoint translate_prefixes (prefixes : list jsstring) (drives : list N)
  (result : list jsstring) : outcome (list jsstring) :=
  match prefixes with
  | [] => Return result
  | prefix :: rest =>
      match translate_drives prefix drives result with
      | Return result => translate_prefixes rest drives result
      | Raise e => Raise e
      end
  end.

(** and the function: [process.env.PATH.split] throws when [PATH] is not
    set. *)
Definition getAllPrefixesWsl_run : outcome (list jsstring) :=
  match process_env "PATH" with
  | None => Raise TypeError
  | Some PATH =>
      match collect_drives_run (split_on colon PATH) [] with
      | Return drives => translate_prefixes program_files drives []
      | Raise e => Raise e
      end
  end.

Definition edge_candidate (prefix dir : jsstring) : jsstring :=
  path_join [prefix; js "Microsoft"; dir; js "Application"; js "msedge.exe"].

(** The inner and the outer loop of [getEdgeExeWsl]. *)
Fixpoint search_dirs (prefix : jsstring) (dirs : list jsstring) : option jsstring :=
  match dirs with
  | [] => None
  | dir :: rest =>
      let candidate := edge_candidate prefix dir in
      if existsSync candidate then Some candidate else search_dirs prefix rest
  end.

Fixpoint search_prefixes (prefixes dirs : list jsstring) : option jsstring :=
  match prefixes with
  | [] => None
  | prefix :: rest =>
      match search_dirs prefix dirs with
      | Some candidate => Some candidate
      | None => search_prefixes rest dirs
      end
  end.

(** [getEdgeExeWsl(...edgeDirNames)]: what [getAllPrefixesWsl] throws is
    not caught; without a name the fallback hands [undefined] to
    [path.join], which throws. *)
Definition getEdgeExeWsl (edgeDirNames : list jsstring) : outcome jsval :=
  if negb isWsl then Return JNull
  else
    match getAllPrefixesWsl_run with
    | Raise e => Raise e
    | Return prefixes =>
        match search_prefixes prefixes edgeDirNames with
        | Some candidate => Return (JStr candidate)
        | None =>
            match edgeDirNames with
            | dir :: _ =>
                Return (JStr (edge_candidate (js "/mnt/c/Program Files/") dir))
            | [] => Raise TypeError
            end
        end
    end.

(** [getEdgeDarwin]: [path.join] throws when [HOME] is not set and
    [accessSync] when the path does not exist; both end in the [catch]. *)
Definition getEdgeDarwin (defaultPath : jsstring) : jsval :=
  match process_platform with
  | Darwin =>
      match process_env "HOME" with
      | Some home =>
          let homePath := path_join [home; defaultPath] in
          if accessSync homePath then JStr homePath else JStr defaultPath
      | None => JStr defaultPath
      end
  | _ => JNull
  end.

(** *** The prototypes *)

Definition linux_command (v : variant) : jsstring :=
  match v with
  | Edge | EdgeHeadless => js "msedge"
  | EdgeBeta | EdgeBetaHeadless => js "msedge-beta"
  | EdgeDev | EdgeDevHeadless => js "msedge-dev"
  | EdgeCanary | EdgeCanaryHeadless => js "Edge SxS"
  end.

Definition darwin_path (v : variant) : jsstring :=
  match v with
  | Edge | EdgeHeadless =>
      js "/Applications/Microsoft Edge.app/Contents/MacOS/Microsoft Edge"
  | EdgeBeta | EdgeBetaHeadless =>
      js "/Applications/Microsoft Edge Beta.app/Contents/MacOS/Microsoft Edge Beta"
  | EdgeDev | EdgeDevHeadless =>
      js "/Applications/Microsoft Edge Dev.app/Contents/MacOS/Microsoft Edge Dev"
  | EdgeCanary | EdgeCanaryHeadless =>
      js "/Applications/Microsoft Edge Canary.app/Contents/MacOS/Microsoft Edge Canary"
  end.

Definition windows_dir (v : variant) : jsstring :=
  match v with
  | Edge | EdgeHeadless => js "Edge"
  | EdgeBeta | EdgeBetaHeadless => js "Edge Beta"
  | EdgeDev | EdgeDevHeadless => js "Edge Dev"
  | EdgeCanary | EdgeCanaryHeadless => js "Edge SxS"
  end.

Definition ENV_CMD (v : variant) : string :=
  match v with
  | Edge | EdgeHeadless => "EDGE_BIN"
  | EdgeBeta | EdgeBetaHeadless => "EDGE_BETA_BIN"
  | EdgeDev | EdgeDevHeadless => "EDGE_DEV_BIN"
  | EdgeCanary | EdgeCanaryHeadless => "EDGE_CANARY_BIN"
  end.

(** [DEFAULT_CMD] of a prototype, computed when the module loads. *)
Record default_cmd := {
  cmd_linux : jsval;
  cmd_darwin : jsval;
  cmd_win32 : outcome jsval
}.

Definition DEFAULT_CMD (v : variant) : default_cmd :=
  {| cmd_linux := getBin process_platform which [linux_command v];
     cmd_darwin := getEdgeDarwin (darwin_path v);
     cmd_win32 :=
       if isWsl then getEdgeExeWsl [windows_dir v]
       else Return (getEdgeExe process_platform process_env path_join accessSync
                      (windows_dir v)) |}.

End WslBridge.

(** ** Notions used by the statements *)

(** [f] holds, somewhere, the prefix immediately followed by a quote. *)
Definition quoted_js_flags_in (f : jsstring) : Prop :=
  ∃ a q b, is_quote q = true ∧ f = a ++ js_flags_prefix ++ q :: b.

Definition quote_free (s : jsstring) : bool := forallb (λ c, negb (is_quote c)) s.

(** What one run of the [forEach] of [_getOptions] does to one flag. *)
Definition sanitize_flag (f : jsstring) : jsstring :=
  if isJSFlags f then sanitizeJSFlags f else f.

(** The store after [n] successive calls of a builder. *)
Fixpoint call_times {A} (n : nat) (m : M A) (σ : store) : store :=
  match n with
  | O => σ
  | S n => call_times n m (m σ).2
  end.

Definition default_port_flag : jsstring := js "--remote-debugging-port=9222".

Definition default_js_flags : jsstring := js "--js-flags=--nocrankshaft --noopt".

(** The Linux browser is installed: the variant has a Linux command and
    [which] resolves it. *)
Definition linux_installed (which : jsstring → option jsstring)
  (DEFAULT_CMD_linux : jsval) : Prop :=
  ∃ cmd path, DEFAULT_CMD_linux = JStr cmd ∧ cmd ≠ []
              ∧ which cmd = Some path ∧ path ≠ [].

(** [DISPLAY] names a display: it is set, and not to the empty string. *)
Definition display_set (process_env : string → option jsstring) : Prop :=
  ∃ d, process_env "DISPLAY" = Some d ∧ d ≠ [].

(** The decision of [_start], as the source takes it. *)
Definition takes_bridge (isWsl : bool) (which : jsstring → option jsstring)
  (process_env : string → option jsstring) (DEFAULT_CMD_linux : jsval)
  (opts : list jsstring) : bool :=
  isWsl && (linux_not_installed which DEFAULT_CMD_linux
            || (negb (includes (js "--headless") opts)
                && negb (truthy (env process_env "DISPLAY")))).

(** The text a chunk stands for in the listener. *)
Definition chunk_text (c : chunk) : jsstring :=
  match c with
  | ChunkString s => s
  | ChunkBuffer bytes => decoder_write bytes
  end.

(** The sentinel line the script of [useWindowsWSL] echoes for the digits of
    a PID: marker, a space, [debug me @ ], the digits, a line feed. *)
Definition sentinel_line (digits : list N) : list N :=
  sentinel_marker ++ 32 :: debug_me_at ++ digits ++ [10].

(** The sentinel itself, from the marker to the last digit. *)
Definition sentinel_text (digits : list N) : list N :=
  sentinel_marker ++ 32 :: debug_me_at ++ digits.

(** The decoder state after it has read [bytes]. *)
Definition utf8_after (st : utf8_state) (bytes : list N) : utf8_state :=
  foldl (λ s b, (utf8_step s b).2) st bytes.

(** The states a decoder can be in: an open sequence has read a first byte
    that rules out an encoding of a code point below 128. *)
Definition utf8_ok (st : utf8_state) : Prop :=
  0x80 ≤ u_lower st ∧
  match u_needed st with
  | 0%nat => True
  | 1%nat => 2 ≤ u_cp st
  | _ => 1 ≤ u_cp st ∨ 0x90 ≤ u_lower st
  end.

(** The variants whose [_getOptions] goes through [getHeadlessOptions],
    and those whose goes through [getCanaryOptions]. *)
Definition is_headless (v : variant) : bool :=
  match v with
  | EdgeHeadless | EdgeBetaHeadless | EdgeDevHeadless | EdgeCanaryHeadless => true
  | _ => false
  end.

Definition is_canary (v : variant) : bool :=
  match v with
  | EdgeCanary | EdgeCanaryHeadless => true
  | _ => false
  end.

(** [which] resolves the command to a path. *)
Definition resolved (which : jsstring → option jsstring) (cmd : jsstring) : Prop :=
  ∃ p, which cmd = Some p ∧ p ≠ [].

(** The code units a shell treats specially among those [useWindowsWSL]
    escapes: white space and the two parentheses. *)
Definition shell_special (c : N) : bool :=
  is_space c || (c =? open_paren) || (c =? close_paren).

(** Every special code unit of [s] comes right after a backslash;
    [after_backslash] tells whether [s] itself does. *)
Fixpoint guarded (after_backslash : bool) (s : jsstring) : bool :=
  match s with
  | [] => true
  | c :: s' =>
      (if shell_special c then after_backslash else true)
      && guarded (c =? backslash) s'
  end.

(** The flag [getCanaryOptions] appends for the user flags [flags]. *)
Definition canary_flag (flags : list jsstring) : jsstring :=
  match foldl augment JUndefined flags with
  | JStr (c :: a) => c :: a
  | _ => js_flags_prefix ++ customFlags
  end.

(** [pat] occurs in [s]. *)
Definition occurs_in (pat s : jsstring) : Prop := ∃ a b, s = a ++ pat ++ b.

(** The PID a chunk carries for the listener, if its text matches. *)
Definition chunk_pid (c : chunk) : option N :=
  parseInt <$> match_sentinel (chunk_text c).

(** [s] holds a sentinel for [digits]: the marker, white space,
    [debug me @ ] and the whole run of digits. *)
Definition holds_sentinel (s digits : jsstring) : Prop :=
  ∃ a ws b,
    s = a ++ sentinel_marker ++ ws ++ debug_me_at ++ digits ++ b
    ∧ ws ≠ [] ∧ Forall (λ c, is_space c = true) ws
    ∧ digits ≠ [] ∧ Forall (λ d, is_digit d = true) digits
    ∧ (∀ d b', b = d :: b' → is_digit d = false).

(** What the three replacements of [escape_for_shell] make of one code
    unit. *)
Definition escape_unit (c : N) : jsstring :=
  if is_space c then [backslash; 32]
  else if c =? open_paren then [backslash; open_paren]
  else if c =? close_paren then [backslash; close_paren]
  else [c].

(** * Properties *)

Local Close Scope N_scope.

(** ** String primitives *)

Lemma starts_with_app p t : starts_with p (p ++ t) = true.
Proof.
  induction p as [|a p IH]; simpl; [done|].
  by rewrite N.eqb_refl, IH.
Qed.

Lemma starts_with_inv p s : starts_with p s = true → ∃ t, s = p ++ t.
Proof.
  revert s. induction p as [|a p IH]; intros s H; simpl in *.
  - by exists s.
  - destruct s as [|b s]; [done|].
    apply andb_true_iff in H as [Hab Hps].
    apply N.eqb_eq in Hab as ->.
    destruct (IH _ Hps) as [t ->]. by exists t.
Qed.

Lemma starts_with_iff p s : starts_with p s = true ↔ ∃ t, s = p ++ t.
Proof.
  split; [apply starts_with_inv|]. intros [t ->]. apply starts_with_app.
Qed.

Lemma indexOf_ge pat s : (-1 ≤ indexOf pat s)%Z.
Proof.
  induction s as [|c s IH]; simpl; destruct (starts_with pat _); try lia.
  destruct (Z.eqb_spec (indexOf pat s) (-1)); lia.
Qed.

Lemma indexOf_zero pat s : indexOf pat s = 0%Z ↔ starts_with pat s = true.
Proof.
  destruct s as [|c s]; simpl; destruct (starts_with pat _); try done.
  pose proof (indexOf_ge pat s).
  destruct (Z.eqb_spec (indexOf pat s) (-1)); split; (done || lia).
Qed.

(** [indexOf] finds the pattern exactly when it occurs somewhere. *)
Lemma indexOf_found pat s :
  indexOf pat s ≠ (-1)%Z ↔ ∃ a b, s = a ++ pat ++ b.
Proof.
  induction s as [|c s IH]; simpl.
  - destruct (starts_with pat []) eqn:E.
    + split; [|done]. intros _. apply starts_with_inv in E as [t E].
      by exists [], t.
    + split; [done|]. intros (a & b & E').
      destruct a; [|done]. simpl in E'.
      rewrite E', starts_with_app in E. done.
  - destruct (starts_with pat (c :: s)) eqn:E.
    + split; [|done]. intros _. apply starts_with_inv in E as [t E].
      by exists [], t.
    + destruct (Z.eqb_spec (indexOf pat s) (-1)) as [Hi|Hi].
      * split; [done|]. intros (a & b & E').
        destruct a as [|a0 a]; simpl in E'.
        -- rewrite E', starts_with_app in E. done.
        -- injection E' as -> ->. exfalso. apply IH; [eauto|done].
      * pose proof (indexOf_ge pat s). split; [|lia]. intros _.
        apply IH in Hi as (a & b & ->). by exists (c :: a), b.
Qed.

Lemma isJSFlags_iff f : isJSFlags f = true ↔ ∃ t, f = js_flags_prefix ++ t.
Proof.
  unfold isJSFlags. rewrite Z.eqb_eq, indexOf_zero. apply starts_with_iff.
Qed.

Lemma is_quote_cases q : is_quote q = true → q = single_quote ∨ q = double_quote.
Proof.
  unfold is_quote. rewrite orb_true_iff, !N.eqb_eq. tauto.
Qed.

Lemma strip_end_length q s : length (strip_end q s) ≤ length s.
Proof.
  induction s as [|c s IH]; simpl; [done|].
  destruct s as [|d s]; [destruct (c =? q)%N; simpl; lia|].
  simpl in *. lia.
Qed.

Lemma strip_end_app q a b : b ≠ [] → strip_end q (a ++ b) = a ++ strip_end q b.
Proof.
  intros Hb. induction a as [|c a IH]; simpl; [done|].
  rewrite IH. destruct (a ++ b) eqn:E; [|done].
  apply app_eq_nil in E as [_ ?]. done.
Qed.

Lemma strip_end_snoc q s : strip_end q (s ++ [q]) = s.
Proof.
  induction s as [|c s IH]; simpl; [by rewrite N.eqb_refl|].
  rewrite IH. by destruct s.
Qed.

Lemma strip_end_no_match q s : last s ≠ Some q → strip_end q s = s.
Proof.
  induction s as [|c s IH]; simpl; [done|].
  destruct s as [|d s].
  - simpl. intros H. destruct (N.eqb_spec c q); [congruence|done].
  - intros H. f_equal. apply IH. exact H.
Qed.

(** ** The flag sanitizer *)

Lemma js_flags_quote_here_Some s q :
  js_flags_quote_here s = Some q ↔
  is_quote q = true ∧ ∃ b, s = js_flags_prefix ++ q :: b.
Proof.
  unfold js_flags_quote_here. split.
  - destruct (starts_with js_flags_prefix s) eqn:E; [|done].
    apply starts_with_inv in E as [t ->].
    rewrite drop_app_length. destruct t as [|c t]; [done|].
    destruct (is_quote c) eqn:Q; [|done]. intros [= ->]. eauto.
  - intros [Q [b ->]]. rewrite starts_with_app, drop_app_length. by rewrite Q.
Qed.

Lemma exec_js_flags_quote_unfold s :
  exec_js_flags_quote s =
  match js_flags_quote_here s with
  | Some q => Some q
  | None => match s with
            | [] => None
            | _ :: s' => exec_js_flags_quote s'
            end
  end.
Proof. by destruct s. Qed.

Lemma exec_js_flags_quote_Some s q :
  exec_js_flags_quote s = Some q → is_quote q = true ∧ quoted_js_flags_in s.
Proof.
  induction s as [|c s IH]; rewrite exec_js_flags_quote_unfold.
  - done.
  - destruct (js_flags_quote_here (c :: s)) eqn:E.
    + intros [= ->]. apply js_flags_quote_here_Some in E as [Q [b E]].
      split; [done|]. by exists [], q, b.
    + intros H. destruct (IH H) as [Q (a & q' & b & Q' & ->)].
      split; [done|]. by exists (c :: a), q', b.
Qed.

Lemma exec_js_flags_quote_None s :
  exec_js_flags_quote s = None ↔ ¬ quoted_js_flags_in s.
Proof.
  split.
  - intros H (a & q & b & Q & ->). revert H.
    induction a as [|c a IH].
    + rewrite app_nil_l, exec_js_flags_quote_unfold.
      by rewrite (proj2 (js_flags_quote_here_Some _ q) (conj Q (ex_intro _ b eq_refl))).
    + rewrite <- app_comm_cons, exec_js_flags_quote_unfold.
      destruct (js_flags_quote_here _); [done|]. exact IH.
  - intros H. destruct (exec_js_flags_quote s) as [q|] eqn:E; [|done].
    apply exec_js_flags_quote_Some in E as [_ E]. done.
Qed.

(** The first replacement of [sanitizeJSFlags] removes one code unit. *)
Lemma replace_first_quote_length s q :
  exec_js_flags_quote s = Some q →
  S (length (replace_first (js_flags_prefix ++ [q]) js_flags_prefix s)) = length s.
Proof.
  induction s as [|c s IH]; intros H; rewrite exec_js_flags_quote_unfold in H.
  - done.
  - cbn [replace_first].
    destruct (starts_with (js_flags_prefix ++ [q]) (c :: s)) eqn:E.
    + apply starts_with_inv in E as [t E]. rewrite E.
      rewrite drop_app_length, !length_app. simpl. lia.
    + destruct (js_flags_quote_here (c :: s)) as [q'|] eqn:E'.
      * injection H as ->. apply js_flags_quote_here_Some in E' as [_ [b E']].
        rewrite E', (cons_middle q js_flags_prefix b), app_assoc in E.
        by rewrite starts_with_app in E.
      * simpl. f_equal. by apply IH.
Qed.

Lemma sanitize_unchanged f : ¬ quoted_js_flags_in f → sanitizeJSFlags f = f.
Proof.
  intros H. unfold sanitizeJSFlags.
  by rewrite (proj2 (exec_js_flags_quote_None f) H).
Qed.

Lemma sanitize_shrinks f :
  quoted_js_flags_in f → length (sanitizeJSFlags f) < length f.
Proof.
  intros H. unfold sanitizeJSFlags.
  destruct (exec_js_flags_quote f) as [q|] eqn:E.
  - pose proof (replace_first_quote_length _ _ E).
    pose proof (strip_end_length q
      (replace_first (js_flags_prefix ++ [q]) js_flags_prefix f)).
    simpl in *. lia.
  - apply exec_js_flags_quote_None in E. done.
Qed.

Lemma sanitize_fixed f : sanitizeJSFlags f = f → ¬ quoted_js_flags_in f.
Proof.
  intros E H. apply sanitize_shrinks in H. rewrite E in H. lia.
Qed.

(** A flag that opens with the prefix and a quote loses that quote, and the
    same quote at its very end. *)
Lemma sanitize_quoted q rest :
  is_quote q = true →
  sanitizeJSFlags (js_flags_prefix ++ q :: rest)
  = js_flags_prefix ++ strip_end q rest.
Proof.
  intros Q. unfold sanitizeJSFlags.
  assert (js_flags_quote_here (js_flags_prefix ++ q :: rest) = Some q) as E
    by (apply js_flags_quote_here_Some; eauto).
  assert (exec_js_flags_quote (js_flags_prefix ++ q :: rest) = Some q) as ->.
  { by rewrite exec_js_flags_quote_unfold, E. }
  cbv zeta.
  assert (replace_first (js_flags_prefix ++ [q]) js_flags_prefix
            (js_flags_prefix ++ q :: rest) = js_flags_prefix ++ rest) as ->.
  { rewrite (cons_middle q js_flags_prefix rest), app_assoc.
    destruct ((js_flags_prefix ++ [q]) ++ rest) eqn:E'.
    - apply app_eq_nil in E' as [E' _]. done.
    - rewrite <- E'. unfold replace_first at 1.
      rewrite E'. fold replace_first. rewrite <- E'.
      by rewrite starts_with_app, drop_app_length. }
  destruct rest as [|c rest].
  - apply is_quote_cases in Q as [-> | ->]; reflexivity.
  - by rewrite strip_end_app.
Qed.

Lemma replace_first_skip pat rep c s :
  starts_with pat (c :: s) = false →
  replace_first pat rep (c :: s) = c :: replace_first pat rep s.
Proof. intros H. cbn [replace_first]. by rewrite H. Qed.

Lemma strip_end_keeps_prefix q x :
  is_quote q = true → ∃ y, strip_end q (js_flags_prefix ++ x) = js_flags_prefix ++ y.
Proof.
  intros Q. destruct x as [|c x].
  - exists []. apply is_quote_cases in Q as [-> | ->]; reflexivity.
  - exists (strip_end q (c :: x)). by apply strip_end_app.
Qed.

(** The sanitizer never touches the prefix a flag opens with. *)
Lemma isJSFlags_sanitize f :
  isJSFlags f = true → isJSFlags (sanitizeJSFlags f) = true.
Proof.
  intros H. apply isJSFlags_iff in H as [t ->].
  destruct (js_flags_quote_here (js_flags_prefix ++ t)) as [q|] eqn:Here.
  { apply js_flags_quote_here_Some in Here as [Q [b E]].
    apply app_inv_head in E as ->. rewrite sanitize_quoted by done.
    apply isJSFlags_iff. eauto. }
  unfold sanitizeJSFlags.
  destruct (exec_js_flags_quote (js_flags_prefix ++ t)) as [q|] eqn:E;
    [|apply isJSFlags_iff; eauto].
  apply exec_js_flags_quote_Some in E as [Q _]. cbv zeta.
  assert (replace_first (js_flags_prefix ++ [q]) js_flags_prefix (js_flags_prefix ++ t)
          = js_flags_prefix ++ replace_first (js_flags_prefix ++ [q]) js_flags_prefix t)
    as ->.
  { assert (starts_with (js_flags_prefix ++ [q]) (js_flags_prefix ++ t) = false) as H0.
    { destruct (starts_with _ _) eqn:S; [|done].
      apply starts_with_inv in S as [t' S].
      rewrite <- app_assoc in S. apply app_inv_head in S as ->.
      rewrite (proj2 (js_flags_quote_here_Some _ q)) in Here; [done|eauto]. }
    revert H0. unfold js_flags_prefix at 2 3 4. cbn [app]. intros H0.
    rewrite (replace_first_skip _ _ _ _ H0).
    apply is_quote_cases in Q as [-> | ->];
      by rewrite !replace_first_skip by reflexivity. }
  destruct (strip_end_keeps_prefix q
    (replace_first (js_flags_prefix ++ [q]) js_flags_prefix t) Q) as [y ->].
  apply isJSFlags_iff. eauto.
Qed.

Lemma quote_free_not_quoted s : quote_free s = true → ¬ quoted_js_flags_in s.
Proof.
  intros F (a & q & b & Q & ->). unfold quote_free in F.
  rewrite !forallb_app in F.
  apply andb_true_iff in F as [_ F]. apply andb_true_iff in F as [_ F].
  cbn [forallb] in F. by rewrite Q in F.
Qed.

(** ** Claims on the flag sanitizer *)

(** C3, the claim as the spec states it fails on an unterminated quote: the
    flag [--js-flags='--foo] opens with the prefix and a single quote, does
    not end with a single quote, and is returned without its opening quote
    rather than unchanged. *)
Lemma sanitizeJSFlags_unterminated_changed :
  let f := js "--js-flags='--foo" in
  isJSFlags f = true ∧ last f ≠ Some single_quote
  ∧ sanitizeJSFlags f = js "--js-flags=--foo" ∧ sanitizeJSFlags f ≠ f.
Proof. repeat split; vm_compute; congruence. Qed.

(** C3 (amended): for a flag that opens with [--js-flags=] followed by a
    single or double quote [q], [sanitizeJSFlags] strips that leading quote
    and, when the string ends with the same quote, that trailing quote too:
    prefix, [q], body, [q] becomes prefix, body.  When the quoting is
    unterminated or mismatched (the rest does not end with [q]) only the
    leading quote is stripped. *)
Theorem sanitizeJSFlags_strips_quotes (q : N) (body rest : jsstring) :
  is_quote q = true →
  sanitizeJSFlags (js_flags_prefix ++ q :: body ++ [q]) = js_flags_prefix ++ body
  ∧ (last rest ≠ Some q →
     sanitizeJSFlags (js_flags_prefix ++ q :: rest) = js_flags_prefix ++ rest).
Proof.
  intros Q. split.
  - by rewrite sanitize_quoted, strip_end_snoc.
  - intros L. by rewrite sanitize_quoted, strip_end_no_match.
Qed.

Lemma sanitizeJSFlags_strips_quotes_witness :
  sanitizeJSFlags (js "--js-flags='--foo --bar'") = js "--js-flags=--foo --bar"
  ∧ sanitizeJSFlags (js_flags_prefix ++ double_quote :: js "--foo --bar" ++ [double_quote])
    = js "--js-flags=--foo --bar"
  ∧ sanitizeJSFlags (js "--js-flags='--foo") = js "--js-flags=--foo".
Proof.
  split; [|split].
  - exact (proj1 (sanitizeJSFlags_strips_quotes single_quote (js "--foo --bar") [] eq_refl)).
  - exact (proj1 (sanitizeJSFlags_strips_quotes double_quote (js "--foo --bar") [] eq_refl)).
  - apply (proj2 (sanitizeJSFlags_strips_quotes single_quote [] (js "--foo") eq_refl)).
    vm_compute. congruence.
Defined.

(** C4, the claim as the spec states it fails: the flag [x--js-flags='a']
    does not begin with the prefix, and the unanchored expression of
    [sanitizeJSFlags] still finds and strips its quotes. *)
Lemma sanitizeJSFlags_unanchored :
  let f := js "x--js-flags='a'" in
  isJSFlags f = false ∧ starts_with js_flags_prefix f = false
  ∧ sanitizeJSFlags f = js "x--js-flags=a" ∧ sanitizeJSFlags f ≠ f.
Proof. repeat split; vm_compute; congruence. Qed.

(** C4 (amended): [sanitizeJSFlags] returns a flag unchanged exactly when
    the flag contains no occurrence of [--js-flags=] immediately followed by
    a single or double quote; a flag that does not begin with the prefix but
    holds such an occurrence further on is rewritten. *)
Theorem sanitizeJSFlags_unchanged_iff (f : jsstring) :
  sanitizeJSFlags f = f ↔ ¬ quoted_js_flags_in f.
Proof. split; [apply sanitize_fixed | apply sanitize_unchanged]. Qed.

Lemma sanitizeJSFlags_unchanged_iff_witness :
  sanitizeJSFlags (js "--incognito") = js "--incognito".
Proof.
  apply (proj2 (sanitizeJSFlags_unchanged_iff (js "--incognito"))).
  apply quote_free_not_quoted. reflexivity.
Defined.

(** C5, the claim as the spec states it fails on nested quotes: a second
    pass over the result of [--js-flags=''x''] strips a second pair. *)
Lemma sanitizeJSFlags_not_idempotent :
  let f := js "--js-flags=''x''" in
  sanitizeJSFlags f = js "--js-flags='x'"
  ∧ sanitizeJSFlags (sanitizeJSFlags f) = js "--js-flags=x"
  ∧ sanitizeJSFlags (sanitizeJSFlags f) ≠ sanitizeJSFlags f.
Proof. repeat split; vm_compute; congruence. Qed.

(** C5 (amended): a second pass of [sanitizeJSFlags] changes nothing exactly
    when the result of the first pass no longer contains [--js-flags=]
    immediately followed by a quote; this is the case for every flag without
    quote characters, and for every flag made of the prefix and a quoted
    value whose body holds no quote character. *)
Theorem sanitizeJSFlags_idempotent_iff (f : jsstring) :
  (sanitizeJSFlags (sanitizeJSFlags f) = sanitizeJSFlags f
   ↔ ¬ quoted_js_flags_in (sanitizeJSFlags f))
  ∧ (quote_free f = true →
     sanitizeJSFlags (sanitizeJSFlags f) = sanitizeJSFlags f)
  ∧ (∀ q body, is_quote q = true → quote_free body = true →
     f = js_flags_prefix ++ q :: body ++ [q] →
     sanitizeJSFlags (sanitizeJSFlags f) = sanitizeJSFlags f).
Proof.
  split; [|split].
  - split; [apply sanitize_fixed | apply sanitize_unchanged].
  - intros F. apply quote_free_not_quoted in F.
    by rewrite !(sanitize_unchanged f F).
  - intros q body Q F ->. rewrite sanitize_quoted, strip_end_snoc by done.
    apply sanitize_unchanged, quote_free_not_quoted.
    unfold quote_free in *. by rewrite forallb_app, F.
Qed.

Lemma sanitizeJSFlags_idempotent_iff_witness :
  let f := js "--js-flags='--foo --bar'" in
  sanitizeJSFlags (sanitizeJSFlags f) = sanitizeJSFlags f.
Proof.
  apply (proj2 (proj2 (sanitizeJSFlags_idempotent_iff (js "--js-flags='--foo --bar'")))
           single_quote (js "--foo --bar")); reflexivity.
Defined.

(** ** The option builders *)

Lemma forEach_sanitize_from pre fl :
  foldl sanitize_at (pre ++ fl) (seq (length pre) (length fl))
  = pre ++ map sanitize_flag fl.
Proof.
  revert pre. induction fl as [|c fl IH]; intros pre; [done|].
  cbn [length seq foldl map].
  assert (sanitize_at (pre ++ c :: fl) (length pre) = (pre ++ [sanitize_flag c]) ++ fl)
    as ->.
  { unfold sanitize_at, sanitize_flag. rewrite list_lookup_middle by done.
    rewrite <- app_assoc. destruct (isJSFlags c); [|done].
    rewrite <- (Nat.add_0_r (length pre)). by rewrite insert_app_r. }
  specialize (IH (pre ++ [sanitize_flag c])).
  rewrite length_app, Nat.add_1_r in IH. rewrite IH. by rewrite <- app_assoc.
Qed.

Lemma forEach_sanitize_map fl : forEach_sanitize fl = map sanitize_flag fl.
Proof. apply (forEach_sanitize_from [] fl). Qed.

Lemma deref_insert (σ : store) r fl : deref (<[r := fl]> σ) r = fl.
Proof. unfold deref. by rewrite lookup_insert_eq. Qed.

Lemma getOptions_base_result r (σ : store) :
  (_getOptions r σ).1 = edge_cli_options ++ map sanitize_flag (deref σ r).
Proof. unfold _getOptions. by rewrite forEach_sanitize_map. Qed.

(** Every variant leaves the store as [EdgeBrowser]'s [_getOptions] does:
    the launcher's array is overwritten with its sanitized contents. *)
Lemma getOptions_store isWsl v args_flags r (σ : store) :
  (getOptions isWsl v args_flags r σ).2 = <[r := map sanitize_flag (deref σ r)]> σ.
Proof.
  destruct v; unfold getOptions, getHeadlessOptions, getCanaryOptions, bind, ret,
    _getOptions; by rewrite forEach_sanitize_map.
Qed.

Lemma iter_sanitize_flag n f :
  Nat.iter n sanitize_flag f
  = if isJSFlags f then Nat.iter n sanitizeJSFlags f else f.
Proof.
  induction n as [|n IH]; simpl; [by destruct (isJSFlags f)|].
  rewrite IH. unfold sanitize_flag. destruct (isJSFlags f) eqn:E; [|by rewrite E].
  assert (isJSFlags (Nat.iter n sanitizeJSFlags f) = true) as ->; [|done].
  clear IH. induction n; simpl; [done|]. by apply isJSFlags_sanitize.
Qed.

Lemma call_times_flags isWsl v args_flags r n (σ : store) :
  deref (call_times n (getOptions isWsl v args_flags r) σ) r
  = map (Nat.iter n sanitize_flag) (deref σ r).
Proof.
  revert σ. induction n as [|n IH]; intros σ; simpl.
  - by rewrite map_id.
  - rewrite IH, getOptions_store, deref_insert, map_map.
    apply map_ext. intros f. by rewrite Nat.iter_succ_r.
Qed.

Lemma call_times_frame isWsl v args_flags r n (σ : store) r' :
  r' ≠ r → call_times n (getOptions isWsl v args_flags r) σ !! r' = σ !! r'.
Proof.
  intros Hr. revert σ. induction n as [|n IH]; intros σ; simpl; [done|].
  rewrite IH, getOptions_store. by rewrite lookup_insert_ne.
Qed.

(** C10, the claim as the spec states it fails: the caller's array holds
    [--js-flags='--x'] before one call of [_getOptions] and [--js-flags=--x]
    after it. *)
Lemma getOptions_mutates_caller_flags :
  let caller_flags : loc := 1%positive in
  let σ : store := {[ caller_flags := [js "--js-flags='--x'"] ]} in
  ∃ r σ0, bind_flags (Some caller_flags) σ = (r, σ0)
    ∧ deref σ0 caller_flags = [js "--js-flags='--x'"]
    ∧ deref (_getOptions r σ0).2 caller_flags = [js "--js-flags=--x"]
    ∧ deref (_getOptions r σ0).2 caller_flags ≠ deref σ0 caller_flags.
Proof.
  eexists _, _. split; [reflexivity|]. unfold _getOptions. cbn [snd].
  rewrite deref_insert. repeat split; vm_compute; congruence.
Qed.

(** C10 (amended): building the option list rewrites the caller's flags
    array in place.  After [n] calls of any variant's builder the array has
    its length and order, every element that does not begin with
    [--js-flags=] has its value from before the calls, and every element
    that begins with it has been passed [n] times through
    [sanitizeJSFlags]; no other array is touched. *)
Theorem getOptions_rewrites_flags_in_place
  (isWsl : bool) (v : variant) (args_flags : option loc) (r : loc)
  (n : nat) (σ : store) :
  let σ' := call_times n (getOptions isWsl v args_flags r) σ in
  deref σ' r
  = map (λ f, if isJSFlags f then Nat.iter n sanitizeJSFlags f else f) (deref σ r)
  ∧ length (deref σ' r) = length (deref σ r)
  ∧ ∀ r', r' ≠ r → σ' !! r' = σ !! r'.
Proof.
  cbv zeta. rewrite call_times_flags. split; [|split].
  - apply map_ext, iter_sanitize_flag.
  - by rewrite length_map.
  - intros r' Hr. by apply call_times_frame.
Qed.

Lemma getOptions_rewrites_flags_in_place_witness :
  let σ : store := {[ 1%positive := [js "--js-flags=''x''"; js "--incognito"] ]} in
  deref (call_times 2 (getOptions false EdgeCanary (Some 1%positive) 1%positive) σ)
    1%positive
  = [js "--js-flags=x"; js "--incognito"]
  ∧ (call_times 2 (getOptions false EdgeCanary (Some 1%positive) 1%positive) σ
     : store) !! 2%positive = None.
Proof.
  pose proof (getOptions_rewrites_flags_in_place false EdgeCanary (Some 1%positive)
                1%positive 2 {[ 1%positive := [js "--js-flags=''x''"; js "--incognito"] ]})
    as (H1 & _ & H3).
  split; [exact H1|]. rewrite H3; [reflexivity|lia].
Defined.

(** *** The headless builder *)

Lemma isRemoteDebuggingFlag_iff flag :
  isRemoteDebuggingFlag flag = true ↔ ∃ a b, flag = a ++ remote_debugging_port ++ b.
Proof.
  unfold isRemoteDebuggingFlag. rewrite negb_true_iff, Z.eqb_neq.
  apply indexOf_found.
Qed.

Lemma existsb_remote_debugging l :
  existsb isRemoteDebuggingFlag l = true
  ↔ ∃ flag a b, flag ∈ l ∧ flag = a ++ remote_debugging_port ++ b.
Proof.
  rewrite existsb_exists. split.
  - intros (flag & Hin & H). apply isRemoteDebuggingFlag_iff in H as (a & b & H).
    exists flag, a, b. by rewrite list_elem_of_In.
  - intros (flag & a & b & Hin & H). exists flag.
    rewrite <- list_elem_of_In. split; [done|].
    apply isRemoteDebuggingFlag_iff. eauto.
Qed.

Lemma getHeadlessOptions_result (isWsl : bool) (parent : M (list jsstring))
  (σ : store) :
  let merged := (parent σ).1 ++ headless_flags
                ++ (if isWsl then [js "--no-sandbox"] else []) in
  getHeadlessOptions isWsl parent σ
  = (merged ++ (if existsb isRemoteDebuggingFlag merged
               then ([] : list jsstring) else [default_port_flag]),
     (parent σ).2).
Proof.
  unfold getHeadlessOptions, bind, ret. destruct (parent σ) as [opts σ'].
  cbn [fst snd]. destruct isWsl.
  - rewrite <- !app_assoc. destruct (existsb _ _); by rewrite ?app_nil_r, <- ?app_assoc.
  - rewrite !app_nil_r. destruct (existsb _ _); by rewrite ?app_nil_r.
Qed.

Lemma getHeadlessOptions_cases (isWsl : bool) (parent : M (list jsstring))
  (args_flags : option loc) (r : loc) (σ : store) :
  let merged := (parent σ).1 ++ headless_flags
                ++ (if isWsl then [js "--no-sandbox"] else []) in
  let result := (getHeadlessOptions isWsl parent σ).1 in
  let no_port_flag :=
    ∀ flag, flag ∈ merged → ¬ ∃ a b, flag = a ++ remote_debugging_port ++ b in
  (no_port_flag → result = merged ++ [default_port_flag])
  ∧ (¬ no_port_flag → result = merged)
  ∧ (last result = Some default_port_flag ↔ no_port_flag)
  ∧ (deref σ r = [] →
     (getOptions isWsl EdgeHeadless args_flags r σ).1
     = edge_cli_options ++ headless_flags
       ++ (if isWsl then [js "--no-sandbox"] else []) ++ [default_port_flag])
  ∧ (deref σ r = [js "--remote-debugging-port=1234"] →
     (getOptions isWsl EdgeHeadless args_flags r σ).1
     = edge_cli_options ++ [js "--remote-debugging-port=1234"] ++ headless_flags
       ++ (if isWsl then [js "--no-sandbox"] else [])).
Proof.
  cbv zeta. rewrite getHeadlessOptions_result. cbn [fst].
  set (merged := (parent σ).1 ++ headless_flags ++ _).
  assert ((∀ flag, flag ∈ merged → ¬ ∃ a b, flag = a ++ remote_debugging_port ++ b)
          ↔ existsb isRemoteDebuggingFlag merged = false) as Hno.
  { rewrite <- not_true_iff_false, existsb_remote_debugging. split.
    - intros H (flag & a & b & Hin & E). apply (H flag Hin). eauto.
    - intros H flag Hin (a & b & E). apply H. eauto 6. }
  split; [|split; [|split; [|split]]].
  - intros H. apply Hno in H. by rewrite H.
  - intros H. destruct (existsb isRemoteDebuggingFlag merged) eqn:E.
    + by rewrite app_nil_r.
    + exfalso. by apply H, Hno.
  - rewrite Hno. destruct (existsb isRemoteDebuggingFlag merged) eqn:E.
    + rewrite app_nil_r. split; [|done]. subst merged.
      rewrite last_app. destruct isWsl; vm_compute; intros [=].
    + by rewrite last_snoc.
  - intros H. unfold getOptions. rewrite getHeadlessOptions_result. cbn [fst].
    rewrite getOptions_base_result, H. destruct isWsl; reflexivity.
  - intros H. unfold getOptions. rewrite getHeadlessOptions_result. cbn [fst].
    rewrite getOptions_base_result, H. destruct isWsl; reflexivity.
Qed.

(** C6: the headless builder returns the parent's options, then
    [--headless], [--disable-gpu], [--disable-dev-shm-usage], then
    [--no-sandbox] under WSL; [--remote-debugging-port=9222] is the final
    element exactly when no flag of that merged list contains
    [--remote-debugging-port=], and otherwise the merged list is returned as
    it is.  For an [EdgeHeadless] launcher with no user flags the result is
    the fixed options, the three headless flags and the default port at the
    end; with the user flag [--remote-debugging-port=1234] no default port
    is appended. *)
Theorem getHeadlessOptions_spec (isWsl : bool) (parent : M (list jsstring))
  (args_flags : option loc) (r : loc) (σ : store) :
  let merged := (parent σ).1
                ++ [js "--headless"; js "--disable-gpu"; js "--disable-dev-shm-usage"]
                ++ (if isWsl then [js "--no-sandbox"] else []) in
  let result := (getHeadlessOptions isWsl parent σ).1 in
  let no_port_flag :=
    ∀ flag, flag ∈ merged → ¬ ∃ a b, flag = a ++ js "--remote-debugging-port=" ++ b in
  (no_port_flag → result = merged ++ [js "--remote-debugging-port=9222"])
  ∧ (¬ no_port_flag → result = merged)
  ∧ (last result = Some (js "--remote-debugging-port=9222") ↔ no_port_flag)
  ∧ (deref σ r = [] →
     (getOptions isWsl EdgeHeadless args_flags r σ).1
     = edge_cli_options
       ++ [js "--headless"; js "--disable-gpu"; js "--disable-dev-shm-usage"]
       ++ (if isWsl then [js "--no-sandbox"] else [])
       ++ [js "--remote-debugging-port=9222"])
  ∧ (deref σ r = [js "--remote-debugging-port=1234"] →
     (getOptions isWsl EdgeHeadless args_flags r σ).1
     = edge_cli_options ++ [js "--remote-debugging-port=1234"]
       ++ [js "--headless"; js "--disable-gpu"; js "--disable-dev-shm-usage"]
       ++ (if isWsl then [js "--no-sandbox"] else [])).
Proof. exact (getHeadlessOptions_cases isWsl parent args_flags r σ). Qed.

Lemma getHeadlessOptions_spec_witness :
  (getOptions false EdgeHeadless (Some 1%positive) 1%positive
     ({[ 1%positive := [] ]} : store)).1
  = edge_cli_options
    ++ [js "--headless"; js "--disable-gpu"; js "--disable-dev-shm-usage";
        js "--remote-debugging-port=9222"]
  ∧ (getOptions true EdgeHeadless (Some 1%positive) 1%positive
       ({[ 1%positive := [js "--remote-debugging-port=1234"] ]} : store)).1
    = edge_cli_options
      ++ [js "--remote-debugging-port=1234"; js "--headless"; js "--disable-gpu";
          js "--disable-dev-shm-usage"; js "--no-sandbox"].
Proof.
  split.
  - apply (getHeadlessOptions_spec false (ret []) (Some 1%positive) 1%positive
             ({[ 1%positive := [] ]} : store)).
    reflexivity.
  - apply (getHeadlessOptions_spec true (ret []) (Some 1%positive) 1%positive
             ({[ 1%positive := [js "--remote-debugging-port=1234"] ]} : store)).
    reflexivity.
Defined.

(** *** The canary builder *)

Lemma foldl_augment_none flags acc :
  Forall (λ g, isJSFlags g = false) flags → foldl augment acc flags = acc.
Proof.
  intros H. revert acc. induction H as [|g flags Hg _ IH]; intros acc; [done|].
  simpl. unfold augment at 2. by rewrite Hg, IH.
Qed.

Lemma foldl_augment_last pre f post acc :
  isJSFlags f = true → Forall (λ g, isJSFlags g = false) post →
  foldl augment acc (pre ++ f :: post)
  = JStr (sanitizeJSFlags f ++ js " " ++ customFlags).
Proof.
  intros Hf Hpost. rewrite foldl_app. simpl.
  rewrite foldl_augment_none by done. unfold augment. by rewrite Hf.
Qed.

(** C7: the canary builder returns the parent's options followed by exactly
    one more flag.  When no user flag begins with [--js-flags=] (so in
    particular for empty user flags) that flag is
    [--js-flags=--nocrankshaft --noopt]; when the user flags hold such an
    entry, it is that entry (the last one, if there are several) sanitized
    and followed by a space and [--nocrankshaft --noopt]; for the user flags
    [--js-flags='--x'] it is [--js-flags=--x --nocrankshaft --noopt]. *)
Theorem getCanaryOptions_spec (args_flags : option loc)
  (parent : M (list jsstring)) (σ : store) :
  let flags := from_option (deref σ) [] args_flags in
  let result := (getCanaryOptions args_flags parent σ).1 in
  (Forall (λ g, isJSFlags g = false) flags →
   result = (parent σ).1 ++ [default_js_flags])
  ∧ (∀ pre f post,
       flags = pre ++ f :: post → isJSFlags f = true →
       Forall (λ g, isJSFlags g = false) post →
       result = (parent σ).1
                ++ [sanitizeJSFlags f ++ js " --nocrankshaft --noopt"])
  ∧ (flags = [js "--js-flags='--x'"] →
     result = (parent σ).1 ++ [js "--js-flags=--x --nocrankshaft --noopt"]).
Proof.
  cbv zeta. unfold getCanaryOptions, bind, ret.
  destruct (parent σ) as [opts σ']. cbn [fst].
  split; [|split].
  - intros H. by rewrite foldl_augment_none.
  - intros pre f post -> Hf Hpost. rewrite foldl_augment_last by done.
    change (js " " ++ customFlags) with (js " --nocrankshaft --noopt").
    by destruct (sanitizeJSFlags f).
  - intros ->. reflexivity.
Qed.

Lemma getCanaryOptions_spec_witness :
  (getCanaryOptions None (ret [js "-incognito"]) (∅ : store)).1
  = [js "-incognito"; js "--js-flags=--nocrankshaft --noopt"]
  ∧ (getOptions false EdgeCanary (Some 1%positive) 1%positive
       ({[ 1%positive := [js "--js-flags='--x'"] ]} : store)).1
    = edge_cli_options
      ++ [js "--js-flags=--x"; js "--js-flags=--x --nocrankshaft --noopt"].
Proof.
  split.
  - apply (getCanaryOptions_spec None (ret [js "-incognito"]) (∅ : store)).
    constructor.
  - pose proof (getCanaryOptions_spec (Some 1%positive) (_getOptions 1%positive)
                  ({[ 1%positive := [js "--js-flags='--x'"] ]} : store))
      as (_ & _ & H).
    specialize (H eq_refl). unfold getOptions. rewrite H.
    rewrite getOptions_base_result. reflexivity.
Defined.

(** ** The path resolver *)

(** With no candidate on disk the loop ends on the candidate of the last
    prefix that is a string, or on the value it started with. *)
Lemma getEdgeExe_loop_none path_join accessSync suffix prefixes current :
  (∀ p, JStr p ∈ prefixes → accessSync (path_join [p; suffix]) = false) →
  getEdgeExe_loop path_join accessSync suffix prefixes current
  = match last (omap (λ v, match v with JStr p => Some p | _ => None end) prefixes) with
    | Some p => JStr (path_join [p; suffix])
    | None => current
    end.
Proof.
  revert current. induction prefixes as [|v prefixes IH]; intros current H; [done|].
  assert (∀ p, JStr p ∈ prefixes → accessSync (path_join [p; suffix]) = false) as H'
    by (intros p Hp; apply H; by right).
  destruct v as [| |p]; cbn [getEdgeExe_loop omap list_omap]; try by apply IH.
  rewrite (H p) by left. rewrite IH by done. cbn [omap list_omap].
  rewrite last_cons. by destruct (last _).
Qed.

(** When none of the three variables is set every [path.join] throws and
    the function returns [undefined]. *)
Lemma getEdgeExe_unset path_join accessSync edgeDirName :
  getEdgeExe Win32 (λ _, None) path_join accessSync edgeDirName = JUndefined.
Proof. reflexivity. Qed.

(** C8, as the source has it: with nothing on disk and none of the three
    variables set, the resolver returns [undefined], which is not a
    string. *)
Lemma getEdgeExe_undefined_when_no_prefix_set :
  let result := getEdgeExe Win32 (λ _, None) (λ parts, concat parts)
                  (λ _, false) (js "Edge") in
  result = JUndefined ∧ ∀ path, result ≠ JStr path.
Proof. by vm_compute. Qed.

(** C8: on native Windows, when no candidate (prefix joined with the fixed
    suffix) of a variable that is set is on disk, [getEdgeExe] never returns
    [null]; it returns the candidate computed last, that of the last of
    [LOCALAPPDATA], [PROGRAMFILES] and [PROGRAMFILES(X86)] that is set, so
    that of [PROGRAMFILES(X86)] when the three are set; it returns a string
    exactly when one of the three is set, and [undefined] otherwise. *)
Theorem getEdgeExe_best_guess
  (process_env : string → option jsstring)
  (path_join : list jsstring → jsstring) (accessSync : jsstring → bool)
  (edgeDirName : jsstring) :
  let names := ["LOCALAPPDATA"; "PROGRAMFILES"; "PROGRAMFILES(X86)"]%string in
  let candidate p := path_join [p; edge_suffix edgeDirName] in
  (∀ n q, n ∈ names → process_env n = Some q → accessSync (candidate q) = false) →
  let result := getEdgeExe Win32 process_env path_join accessSync edgeDirName in
  result ≠ JNull
  ∧ (∀ a b c, process_env "LOCALAPPDATA" = Some a →
              process_env "PROGRAMFILES" = Some b →
              process_env "PROGRAMFILES(X86)" = Some c →
              result = JStr (candidate c))
  ∧ (∀ p, last (omap process_env names) = Some p → result = JStr (candidate p))
  ∧ ((∃ path, result = JStr path) ↔ ∃ n, n ∈ names ∧ process_env n ≠ None)
  ∧ (result = JUndefined ↔ ∀ n, n ∈ names → process_env n = None).
Proof.
  intros names candidate H result.
  assert (result = match last (omap process_env names) with
                   | Some p => JStr (candidate p)
                   | None => JUndefined
                   end) as Hres.
  { subst result. unfold getEdgeExe. rewrite getEdgeExe_loop_none.
    - unfold env, names. cbn [omap list_omap].
      destruct (process_env "LOCALAPPDATA"), (process_env "PROGRAMFILES"),
        (process_env "PROGRAMFILES(X86)"); reflexivity.
    - intros p Hp. rewrite !elem_of_cons in Hp. unfold env in Hp.
      destruct Hp as [Hp|[Hp|[Hp|Hp]]]; [| | |by apply elem_of_nil in Hp].
      + destruct (process_env "LOCALAPPDATA") as [q|] eqn:E; [|done].
        injection Hp as ->. apply (H "LOCALAPPDATA"%string); [|done]. by left.
      + destruct (process_env "PROGRAMFILES") as [q|] eqn:E; [|done].
        injection Hp as ->. apply (H "PROGRAMFILES"%string); [|done]. right. by left.
      + destruct (process_env "PROGRAMFILES(X86)") as [q|] eqn:E; [|done].
        injection Hp as ->. apply (H "PROGRAMFILES(X86)"%string); [|done].
        right. right. by left. }
  clearbody result. clear H. subst result. unfold names. cbn [omap list_omap].
  assert (∀ P : string → Prop,
            (∀ n, n ∈ names → P n)
            ↔ P "LOCALAPPDATA"%string ∧ P "PROGRAMFILES"%string
              ∧ P "PROGRAMFILES(X86)"%string) as Hall.
  { intros P. unfold names. split.
    - intros HP. repeat split; apply HP; rewrite !elem_of_cons; auto.
    - intros (P1 & P2 & P3) n Hn. rewrite !elem_of_cons in Hn.
      destruct Hn as [->|[->|[->|Hn]]]; try done. by apply elem_of_nil in Hn. }
  assert ((∃ n, n ∈ names ∧ process_env n ≠ None)
          ↔ ¬ (process_env "LOCALAPPDATA" = None ∧ process_env "PROGRAMFILES" = None
               ∧ process_env "PROGRAMFILES(X86)" = None)) as Hex.
  { rewrite <- (Hall (λ n, process_env n = None)). split.
    - intros (n & Hn & Hset) Hnone. by apply Hset, Hnone.
    - intros Hnot.
      destruct (process_env "LOCALAPPDATA") eqn:E1;
        [exists "LOCALAPPDATA"%string; split; [by left|by rewrite E1]|].
      destruct (process_env "PROGRAMFILES") eqn:E2;
        [exists "PROGRAMFILES"%string; split; [right; by left|by rewrite E2]|].
      destruct (process_env "PROGRAMFILES(X86)") eqn:E3;
        [exists "PROGRAMFILES(X86)"%string; split;
         [right; right; by left|by rewrite E3]|].
      exfalso. apply Hnot. intros n Hn. unfold names in Hn. rewrite !elem_of_cons in Hn.
      destruct Hn as [->|[->|[->|Hn]]]; try done. by apply elem_of_nil in Hn. }
  fold names. rewrite Hex, (Hall (λ n, process_env n = None)). clear Hall Hex.
  destruct (process_env "LOCALAPPDATA") as [a|],
    (process_env "PROGRAMFILES") as [b|],
    (process_env "PROGRAMFILES(X86)") as [c|]; cbn [last].
  all: repeat split; try done; try (by intros; simplify_eq);
    try (by intros [? ?]); try (by intros; eexists);
    try (by intros ? (? & ? & ?)); try (by intros (? & ? & ?)).
  intros Hnot. by destruct Hnot.
Qed.

Lemma getEdgeExe_best_guess_witness :
  let process_env (name : string) :=
    if bool_decide (name = "LOCALAPPDATA") then Some (js "C:\Users\u\AppData\Local")
    else if bool_decide (name = "PROGRAMFILES") then Some (js "C:\Program Files")
    else None in
  let path_join (parts : list jsstring) : jsstring :=
    match parts with
    | p :: rest => foldl (λ acc x, acc ++ js "\" ++ x) p rest
    | [] => js "."
    end in
  getEdgeExe Win32 process_env path_join
    (λ p, bool_decide (p = js "D:\msedge.exe")) (js "Edge")
  = JStr (js "C:\Program Files\Microsoft\Edge\Application\msedge.exe").
Proof.
  intros process_env path_join.
  refine (proj1 (proj2 (proj2 (getEdgeExe_best_guess process_env path_join
            (λ p, bool_decide (p = js "D:\msedge.exe")) (js "Edge") _)))
            (js "C:\Program Files") eq_refl).
  intros n q Hn Hq. rewrite !elem_of_cons in Hn.
  destruct Hn as [->|[->|[->|Hn]]]; [| | |by apply elem_of_nil in Hn];
    vm_compute in Hq; by simplify_eq.
Defined.

(** ** The process launcher *)

Lemma includes_iff x l : includes x l = true ↔ x ∈ l.
Proof.
  unfold includes. rewrite existsb_exists. split.
  - intros (y & Hin & E). apply bool_decide_eq_true in E as ->.
    by apply list_elem_of_In.
  - intros Hin. exists x. rewrite <- list_elem_of_In.
    split; [done|]. by apply bool_decide_eq_true.
Qed.

Lemma truthy_iff v : truthy v = true ↔ ∃ s, v = JStr s ∧ s ≠ [].
Proof.
  destruct v as [| |[|c s]]; simpl; split; try done.
  - by intros (s & ? & ?).
  - by intros (s & ? & ?).
  - intros (s & [= <-] & ?). done.
  - intros _. by exists (c :: s).
Qed.

Lemma linux_not_installed_iff which DEFAULT_CMD_linux :
  linux_not_installed which DEFAULT_CMD_linux = false
  ↔ linux_installed which DEFAULT_CMD_linux.
Proof.
  unfold linux_not_installed, linux_installed, which_sync_nothrow.
  rewrite orb_false_iff, negb_false_iff. split.
  - intros [T W]. apply truthy_iff in T as (cmd & -> & Hcmd).
    apply negb_false_iff, truthy_iff in W as (path & E & Hpath).
    destruct (which cmd) as [p|] eqn:W; [|done]. injection E as ->.
    exists cmd, path. eauto.
  - intros (cmd & path & -> & Hcmd & -> & Hpath). cbn [from_option].
    rewrite negb_false_iff. split; apply truthy_iff; eauto.
Qed.

Lemma display_set_iff process_env :
  truthy (env process_env "DISPLAY") = true ↔ display_set process_env.
Proof.
  unfold env, display_set. rewrite truthy_iff.
  destruct (process_env "DISPLAY") as [d|]; cbn [from_option]; split.
  - intros (s & [= <-] & ?). eauto.
  - intros (s & [= <-] & ?). eauto.
  - by intros (s & ? & ?).
  - by intros (s & ? & ?).
Qed.

Lemma start_spawn isWsl which process_env DEFAULT_CMD_linux getCommand
  (this_getOptions : M (list jsstring)) userDataDir url l (σ : store) :
  let spawn := (_start isWsl which process_env DEFAULT_CMD_linux getCommand
                  this_getOptions userDataDir url l σ).1.2 in
  if takes_bridge isWsl which process_env DEFAULT_CMD_linux ((this_getOptions σ).1)
  then ∃ opts, spawn = SpawnBridge opts
  else ∃ args, spawn = ExecNative (if isWsl then DEFAULT_CMD_linux else getCommand) args.
Proof.
  cbv zeta. unfold takes_bridge, _start, useWindowsWSL, useNormal, bind, ret.
  destruct isWsl; cbn [andb].
  - destruct (linux_not_installed which DEFAULT_CMD_linux); cbn [orb].
    + destruct (this_getOptions σ) as [opts σ1]. cbn [fst snd]. eauto.
    + destruct (this_getOptions σ) as [opts σ1]. cbn [fst snd].
      destruct (negb (includes (js "--headless") opts)
                && negb (truthy (env process_env "DISPLAY")));
        destruct (this_getOptions σ1) as [opts' σ2]; cbn [fst snd]; eauto.
  - destruct (this_getOptions σ) as [opts σ1]. cbn [fst snd]. eauto.
Qed.

Lemma takes_bridge_iff isWsl which process_env DEFAULT_CMD_linux opts :
  takes_bridge isWsl which process_env DEFAULT_CMD_linux opts = true
  ↔ isWsl = true
    ∧ (¬ linux_installed which DEFAULT_CMD_linux
       ∨ (linux_installed which DEFAULT_CMD_linux
          ∧ ¬ (js "--headless" ∈ opts) ∧ ¬ display_set process_env)).
Proof.
  unfold takes_bridge.
  rewrite andb_true_iff, orb_true_iff, andb_true_iff, !negb_true_iff.
  rewrite <- !not_true_iff_false, includes_iff, display_set_iff.
  rewrite <- linux_not_installed_iff.
  destruct (linux_not_installed which DEFAULT_CMD_linux); split.
  - intros [-> _]. split; [done|]. by left.
  - intros [-> _]. split; [done|]. by left.
  - intros [-> [?|[? ?]]]; [done|]. split; [done|]. by right.
  - intros [-> [?|(_ & ? & ?)]]; [done|]. split; [done|]. by right.
Qed.

(** C1, the claim as the spec states it fails when [DISPLAY] is set to the
    empty string: the Linux browser is installed, the options of the [Edge]
    variant hold no [--headless], [DISPLAY] is set, and [_start] still takes
    the bridge, because [!process.env.DISPLAY] is true of the empty
    string. *)
Lemma start_bridge_with_empty_DISPLAY :
  let which : jsstring → option jsstring := λ _, Some (js "/usr/bin/msedge") in
  let process_env : string → option jsstring :=
    λ name, if bool_decide (name = "DISPLAY") then Some [] else None in
  let σ : store := {[ 1%positive := [] ]} in
  let this_getOptions := getOptions true Edge (Some 1%positive) 1%positive in
  linux_installed which (JStr (js "msedge"))
  ∧ (∃ d, process_env "DISPLAY" = Some d)
  ∧ includes (js "--headless") (this_getOptions σ).1 = false
  ∧ (_start true which process_env (JStr (js "msedge")) (JStr (js "msedge.exe"))
       this_getOptions (js "/tmp/karma") (js "http://localhost:9876")
       new_launcher σ).1.2
    = SpawnBridge (this_getOptions σ).1.
Proof.
  cbv zeta. split; [|split; [|split]].
  - exists (js "msedge"), (js "/usr/bin/msedge"). by repeat split.
  - by exists [].
  - by vm_compute.
  - by vm_compute.
Qed.

(** C1 (amended): under WSL [_start] takes the Windows bridge exactly when
    the Linux browser is not installed, or it is installed but the built
    options do not include [--headless] and [DISPLAY] is unset or empty; in
    every other WSL case it runs the Linux command natively, and outside
    WSL it always runs the host's command natively. *)
Theorem start_bridge_decision
  (isWsl : bool) (which : jsstring → option jsstring)
  (process_env : string → option jsstring)
  (DEFAULT_CMD_linux getCommand : jsval) (this_getOptions : M (list jsstring))
  (userDataDir url : jsstring) (l : launcher) (σ : store) :
  let spawn := (_start isWsl which process_env DEFAULT_CMD_linux getCommand
                  this_getOptions userDataDir url l σ).1.2 in
  let installed := linux_installed which DEFAULT_CMD_linux in
  let headless := js "--headless" ∈ (this_getOptions σ).1 in
  let bridge_case :=
    ¬ installed ∨ (installed ∧ ¬ headless ∧ ¬ display_set process_env) in
  ((∃ opts, spawn = SpawnBridge opts) ↔ isWsl = true ∧ bridge_case)
  ∧ (isWsl = true → ¬ bridge_case →
     ∃ args, spawn = ExecNative DEFAULT_CMD_linux args)
  ∧ (isWsl = false → ∃ args, spawn = ExecNative getCommand args).
Proof.
  cbv zeta.
  pose proof (start_spawn isWsl which process_env DEFAULT_CMD_linux getCommand
                this_getOptions userDataDir url l σ) as S.
  pose proof (takes_bridge_iff isWsl which process_env DEFAULT_CMD_linux
                (this_getOptions σ).1) as B.
  cbv zeta in S.
  destruct (takes_bridge isWsl which process_env DEFAULT_CMD_linux
              (this_getOptions σ).1).
  - destruct (proj1 B eq_refl) as [-> C]. split; [|split]; [done|done|done].
  - destruct S as [args S]. rewrite S. split; [|split].
    + split; [by intros [? ?]|]. intros C. apply B in C. done.
    + intros -> _. eauto.
    + intros ->. eauto.
Qed.

Lemma start_bridge_decision_witness :
  let no_which : jsstring → option jsstring := λ _, None in
  let no_env : string → option jsstring := λ _, None in
  (∃ opts, (_start true no_which no_env JUndefined (JStr (js "msedge.exe"))
              (_getOptions 1%positive) (js "/tmp/karma") (js "http://localhost:9876")
              new_launcher (∅ : store)).1.2 = SpawnBridge opts)
  ∧ ∃ args, (_start false no_which no_env JUndefined (JStr (js "msedge.exe"))
               (_getOptions 1%positive) (js "/tmp/karma") (js "http://localhost:9876")
               new_launcher (∅ : store)).1.2 = ExecNative (JStr (js "msedge.exe")) args.
Proof.
  split.
  - apply (start_bridge_decision true (λ _, None) (λ _, None) JUndefined
             (JStr (js "msedge.exe")) (_getOptions 1%positive) (js "/tmp/karma")
             (js "http://localhost:9876") new_launcher (∅ : store)).
    split; [reflexivity|]. left. intros (cmd & path & E & _). discriminate E.
  - apply (start_bridge_decision false (λ _, None) (λ _, None) JUndefined
             (JStr (js "msedge.exe")) (_getOptions 1%positive) (js "/tmp/karma")
             (js "http://localhost:9876") new_launcher (∅ : store)).
    reflexivity.
Defined.

(** ** The kill hook *)

(** C2: the kill hook never throws, invokes nothing itself, and queues its
    completion callback once for the next tick, whatever the termination
    call does.  With no recovered PID it makes no termination call; with a
    recovered PID it makes one call ([Taskkill] after a bridged launch,
    [process.kill] otherwise), and an exception of that call is caught and
    discarded.  Run from an empty queue, the next tick invokes the callback
    exactly once. *)
Theorem on_kill_callback_once {callback : Type}
  (throws : termination → bool) (l : launcher) (done : callback)
  (queue : list callback) :
  let r := on_kill throws l done queue in
  k_completion r = Normal
  ∧ k_invoked r = []
  ∧ k_nextTick r = queue ++ [done]
  ∧ (browserProcessPid l = None → k_terminations r = [])
  ∧ (∀ pid, browserProcessPid l = Some pid → pid ≠ 0%N →
     k_terminations r = [if windowsUsed l then Taskkill pid else ProcessKill pid])
  ∧ (queue = [] → run_tick (k_nextTick r) = [done]).
Proof.
  cbv zeta. unfold on_kill.
  set (call := match browserProcessPid l with Some _ => _ | None => _ end).
  assert (try_catch_ignore (if existsb throws call then Throw else Normal) = Normal)
    as -> by (by destruct (existsb throws call)).
  cbn [k_completion k_invoked k_nextTick k_terminations].
  repeat split.
  - intros E. subst call. by rewrite E.
  - intros pid E Hpid. subst call. rewrite E. cbn [pid_truthy].
    by destruct (N.eqb_spec pid 0).
  - by intros ->.
Qed.

Lemma on_kill_callback_once_witness :
  let always_throws : termination → bool := λ _, true in
  k_terminations (on_kill always_throws new_launcher 7 []) = []
  ∧ k_terminations
      (on_kill always_throws {| windowsUsed := true; browserProcessPid := Some 4242%N |}
         7 [])
    = [Taskkill 4242]
  ∧ run_tick (k_nextTick
      (on_kill always_throws {| windowsUsed := true; browserProcessPid := Some 4242%N |}
         7 [])) = [7].
Proof.
  pose proof (on_kill_callback_once (λ _, true) new_launcher 7 [])
    as (_ & _ & _ & H1 & _).
  pose proof (on_kill_callback_once (λ _, true)
                {| windowsUsed := true; browserProcessPid := Some 4242%N |} 7 [])
    as (_ & _ & _ & _ & H2 & H3).
  split; [exact (H1 eq_refl)|]. split; [|exact (H3 eq_refl)].
  apply (H2 4242%N eq_refl). lia.
Defined.

(** ** The error stream *)

(** *** Decoding *)

Lemma utf8_init_ok : utf8_ok utf8_init.
Proof. unfold utf8_ok, utf8_init. simpl. split; [lia|done]. Qed.

Lemma utf8_lead_ok b out st :
  utf8_lead b = (out, st) →
  utf8_ok st ∧ Forall (λ cp, (cp = b ∧ b < 128 ∨ 128 ≤ cp)%N) out.
Proof.
  unfold utf8_lead, in_range, utf8_ok.
  repeat match goal with
         | |- context [(?x <=? ?y)%N] => destruct (N.leb_spec x y); cbn [andb]
         end;
    intros [= <- <-]; cbn [u_lower u_needed u_cp utf8_init];
    repeat match goal with
           | |- context [(?x =? ?y)%N] => destruct (N.eqb_spec x y)
           end;
    (split; [try split; try lia | repeat constructor; lia]).
Qed.

Lemma utf8_step_ok st b out st' :
  utf8_ok st → utf8_step st b = (out, st') →
  utf8_ok st' ∧ Forall (λ cp, (cp = b ∧ b < 128 ∨ 128 ≤ cp)%N) out.
Proof.
  intros [Hlo Hcp]. unfold utf8_step.
  destruct (u_needed st) as [|[|n]]; [apply utf8_lead_ok| |].
  - unfold in_range. destruct (N.leb_spec (u_lower st) b); cbn [andb].
    + destruct (N.leb_spec b (u_upper st)).
      * intros [= <- <-]. split; [apply utf8_init_ok|].
        constructor; [lia|constructor].
      * destruct (utf8_lead b) as [o s] eqn:E. intros [= <- <-].
        apply utf8_lead_ok in E as [? ?]. split; [done|].
        constructor; [lia|done].
    + destruct (utf8_lead b) as [o s] eqn:E. intros [= <- <-].
      apply utf8_lead_ok in E as [? ?]. split; [done|].
      constructor; [lia|done].
  - unfold in_range. destruct (N.leb_spec (u_lower st) b); cbn [andb].
    + destruct (N.leb_spec b (u_upper st)).
      * intros [= <- <-]. split; [|constructor].
        unfold utf8_ok. cbn [u_lower u_needed u_cp]. split; [lia|].
        destruct n; lia.
      * destruct (utf8_lead b) as [o s] eqn:E. intros [= <- <-].
        apply utf8_lead_ok in E as [? ?]. split; [done|].
        constructor; [lia|done].
    + destruct (utf8_lead b) as [o s] eqn:E. intros [= <- <-].
      apply utf8_lead_ok in E as [? ?]. split; [done|].
      constructor; [lia|done].
Qed.

Lemma utf8_after_ok st bytes : utf8_ok st → utf8_ok (utf8_after st bytes).
Proof.
  revert st. induction bytes as [|b bytes IH]; intros st H; [done|].
  apply IH. destruct (utf8_step st b) as [out st'] eqn:E.
  by apply (utf8_step_ok _ _ _ _ H) in E as [? _].
Qed.

Lemma utf8_run_app st x w :
  utf8_run st (x ++ w) = utf8_run st x ++ utf8_run (utf8_after st x) w.
Proof.
  revert st. induction x as [|b x IH]; intros st; [done|].
  cbn [app utf8_run utf8_after foldl].
  destruct (utf8_step st b) as [out st']. cbn [snd].
  rewrite IH. by rewrite app_assoc.
Qed.

(** An ASCII byte ends whatever sequence is open, with U+FFFD when one
    was, decodes to itself and leaves no sequence open. *)
Lemma utf8_step_ascii st b :
  utf8_ok st → (b < 128)%N →
  ∃ f, (f = [] ∨ f = [0xFFFD%N]) ∧ utf8_step st b = (f ++ [b], utf8_init).
Proof.
  intros [Hlo _] Hb. unfold utf8_step.
  assert (utf8_lead b = ([b], utf8_init)) as Hlead.
  { unfold utf8_lead. destruct (N.leb_spec b 0x7F); [done|lia]. }
  assert (in_range (u_lower st) (u_upper st) b = false) as Hr.
  { unfold in_range. destruct (N.leb_spec (u_lower st) b); [lia|done]. }
  destruct (u_needed st) as [|n].
  - rewrite Hlead. exists []. by split; [left|].
  - rewrite Hr, Hlead. exists [0xFFFD%N]. by split; [right|].
Qed.

(** Any other byte gives no code point below 128. *)
Lemma utf8_step_high st b out st' :
  utf8_ok st → (128 ≤ b)%N → utf8_step st b = (out, st') →
  utf8_ok st' ∧ Forall (λ cp, (128 ≤ cp)%N) out.
Proof.
  intros Hst Hb E. apply (utf8_step_ok _ _ _ _ Hst) in E as [Hst' Hout].
  split; [done|]. eapply Forall_impl; [exact Hout|]. intros cp [[_ ?]|?]; lia.
Qed.

Lemma utf8_run_ascii w y :
  Forall (λ b, (b < 128)%N) w →
  utf8_run utf8_init (w ++ y) = w ++ utf8_run utf8_init y.
Proof.
  induction 1 as [|b w Hb _ IH]; [done|].
  cbn [app utf8_run]. unfold utf8_step. cbn [u_needed utf8_init].
  unfold utf8_lead. destruct (N.leb_spec b 0x7F); [|lia].
  fold utf8_init. by rewrite IH.
Qed.

Lemma utf16_units_ascii w :
  Forall (λ b, (b < 128)%N) w → concat (map utf16_units w) = w.
Proof.
  induction 1 as [|b w Hb _ IH]; [done|].
  cbn [map concat]. rewrite IH. unfold utf16_units.
  destruct (N.ltb_spec b 0x10000); [done|lia].
Qed.

Lemma utf16_units_high cps :
  Forall (λ cp, (128 ≤ cp)%N) cps →
  Forall (λ u, (128 ≤ u)%N) (concat (map utf16_units cps)).
Proof.
  induction 1 as [|cp cps Hcp _ IH]; [constructor|].
  cbn [map concat]. apply Forall_app. split; [|done].
  unfold utf16_units. destruct (N.ltb_spec cp 0x10000).
  - by repeat constructor.
  - repeat constructor; lia.
Qed.

Lemma utf8_step_ascii_open st b :
  utf8_ok st → (b < 128)%N → u_needed st ≠ 0%nat →
  utf8_step st b = ([0xFFFD%N; b], utf8_init).
Proof.
  intros [Hlo _] Hb Hopen. unfold utf8_step.
  destruct (u_needed st) as [|n]; [done|].
  assert (in_range (u_lower st) (u_upper st) b = false) as ->.
  { unfold in_range. destruct (N.leb_spec (u_lower st) b); [lia|done]. }
  unfold utf8_lead. destruct (N.leb_spec b 0x7F); [done|lia].
Qed.

(** A byte that gives no code point leaves a sequence open. *)
Lemma utf8_step_silent st b st' :
  utf8_step st b = ([], st') → u_needed st' ≠ 0%nat.
Proof.
  unfold utf8_step, utf8_lead.
  destruct (u_needed st) as [|[|n]];
    repeat match goal with
           | |- context [if ?c then _ else _] => destruct c
           end;
    by intros [= <-].
Qed.

(** The text of some bytes does not begin with a digit when the bytes do
    not, nor when they are read with a sequence open. *)
Lemma utf8_run_head st bytes d r :
  utf8_ok st →
  u_needed st ≠ 0%nat ∨ (∀ c t, bytes = c :: t → is_digit c = false) →
  concat (map utf16_units (utf8_run st bytes)) = d :: r →
  is_digit d = false.
Proof.
  revert st. induction bytes as [|b bytes IH]; intros st Hst Hhead E; [done|].
  cbn [utf8_run] in E. destruct (utf8_step st b) as [out st'] eqn:Hstep.
  destruct out as [|cp out].
  - pose proof (utf8_step_silent _ _ _ Hstep) as Hopen.
    apply (utf8_step_ok _ _ _ _ Hst) in Hstep as [Hst' _].
    apply (IH st' Hst'); [by left|done].
  - pose proof Hstep as Hstep'.
    apply (utf8_step_ok _ _ _ _ Hst) in Hstep as [_ Hout].
    apply Forall_cons in Hout as [Hcp _].
    assert (d = cp ∨ (128 ≤ d)%N) as Hd.
    { cbn [app map concat] in E. unfold utf16_units in E.
      destruct (N.ltb_spec cp 0x10000); injection E as <- _; [by left|right; lia]. }
    assert (∀ u, (128 ≤ u)%N → is_digit u = false) as Hhigh.
    { intros u Hu. unfold is_digit, in_range.
      destruct (N.leb_spec u 57); [lia|apply andb_false_r]. }
    destruct Hd as [-> |Hd]; [|by apply Hhigh].
    destruct Hcp as [[-> Hb]|Hcp]; [|by apply Hhigh].
    destruct Hhead as [Hopen|Hhead]; [|by apply (Hhead b bytes)].
    rewrite (utf8_step_ascii_open st b) in Hstep' by done.
    injection Hstep' as Hb' _ _. lia.
Qed.

(** The text of a buffer continues the text of each of its beginnings. *)
Lemma decoder_write_app x y :
  decoder_write (x ++ y)
  = decoder_write x ++ concat (map utf16_units (utf8_run (utf8_after utf8_init x) y)).
Proof. unfold decoder_write. by rewrite utf8_run_app, map_app, concat_app. Qed.

(** A run of ASCII bytes inside a buffer is decoded to itself, whatever
    precedes it; a sequence that the bytes before the run leave open is
    closed with U+FFFD, and what follows the run is decoded as the bytes of
    a buffer of its own. *)
Lemma decoder_write_ascii_run a w y :
  Forall (λ b, (b < 128)%N) w → w ≠ [] →
  ∃ f, (f = [] ∨ f = [0xFFFD%N])
       ∧ decoder_write (a ++ w ++ y) = decoder_write a ++ f ++ w ++ decoder_write y.
Proof.
  intros Hw Hne. destruct Hw as [|b w Hb Hw]; [done|].
  rewrite decoder_write_app. cbn [app utf8_run].
  destruct (utf8_step_ascii (utf8_after utf8_init a) b)
    as (f & Hf & ->); [apply utf8_after_ok, utf8_init_ok|done|].
  exists f. split; [done|]. f_equal.
  rewrite utf8_run_ascii by done.
  assert (concat (map utf16_units f) = f) as Ef by (by destruct Hf as [-> | ->]).
  rewrite <- app_assoc. cbn [app].
  change (b :: w ++ utf8_run utf8_init y) with ((b :: w) ++ utf8_run utf8_init y).
  rewrite !map_app, !concat_app, Ef.
  by rewrite (utf16_units_ascii (b :: w)) by (by constructor).
Qed.

(** A text with a letter B in it comes from bytes with that letter in them,
    and what follows the letter is the text of the bytes that follow it. *)
Lemma split_at_unit (u : N) (x r p q : list N) :
  Forall (λ v, v ≠ u) x → x ++ r = p ++ u :: q →
  ∃ l, p = x ++ l ∧ r = l ++ u :: q.
Proof.
  intros Hx. revert p. induction Hx as [|v x Hv _ IH]; intros p E.
  - by exists p.
  - destruct p as [|v' p]; cbn [app] in E; injection E as -> E; [done|].
    destruct (IH p E) as (l & -> & ->). by exists l.
Qed.

Lemma decoder_split st bytes p q :
  utf8_ok st →
  concat (map utf16_units (utf8_run st bytes)) = p ++ 66%N :: q →
  ∃ c1 c2, bytes = c1 ++ 66%N :: c2 ∧ q = decoder_write c2.
Proof.
  revert st p. induction bytes as [|b bytes IH]; intros st p Hst E.
  - by destruct p.
  - cbn [utf8_run] in E. destruct (utf8_step st b) as [out st'] eqn:Hstep.
    rewrite map_app, concat_app in E.
    destruct (N.lt_ge_cases b 128) as [Hb|Hb].
    + destruct (utf8_step_ascii st b Hst Hb) as (f & Hf & Hstep').
      rewrite Hstep' in Hstep. injection Hstep as <- <-.
      rewrite map_app, concat_app, <- app_assoc in E.
      assert (concat (map utf16_units [b]) = [b]) as Eb.
      { cbn [map concat]. unfold utf16_units.
        destruct (N.ltb_spec b 0x10000); [done|lia]. }
      rewrite Eb in E.
      apply split_at_unit in E as (l & -> & E);
        [|by destruct Hf as [-> | ->]; repeat constructor].
      destruct l as [|v l]; cbn [app] in E; injection E as -> E.
      * exists [], bytes. by rewrite <- E.
      * destruct (IH _ _ utf8_init_ok E) as (c1 & c2 & -> & ->).
        by exists (v :: c1), c2.
    + apply (utf8_step_high _ _ _ _ Hst Hb) in Hstep as [Hst' Hout].
      apply split_at_unit in E as (l & -> & E).
      * destruct (IH _ _ Hst' E) as (c1 & c2 & -> & ->). by exists (b :: c1), c2.
      * eapply Forall_impl; [exact (utf16_units_high _ Hout)|].
        intros v Hv. cbv beta in Hv. lia.
Qed.

(** *** Matching *)

Lemma take_drop_while f s : take_while f s ++ drop_while f s = s.
Proof.
  induction s as [|c s IH]; [done|]. simpl. destruct (f c); [|done].
  simpl. by rewrite IH.
Qed.

Lemma take_while_Forall f s : Forall (λ c, f c = true) (take_while f s).
Proof.
  induction s as [|c s IH]; simpl; [constructor|].
  destruct (f c) eqn:E; by constructor.
Qed.

Lemma drop_while_head f s c s' : drop_while f s = c :: s' → f c = false.
Proof.
  induction s as [|d s IH]; simpl; [done|].
  destruct (f d) eqn:E; [done|]. by intros [= <- _].
Qed.

Lemma take_while_app f s b :
  Forall (λ c, f c = true) s → (∀ d b', b = d :: b' → f d = false) →
  take_while f (s ++ b) = s.
Proof.
  intros Hs Hb. induction Hs as [|c s Hc _ IH]; simpl.
  - destruct b as [|d b']; [done|]. simpl. by rewrite (Hb d b').
  - by rewrite Hc, IH.
Qed.

Lemma drop_while_app f s b :
  Forall (λ c, f c = true) s → (∀ d b', b = d :: b' → f d = false) →
  drop_while f (s ++ b) = b.
Proof.
  intros Hs Hb. induction Hs as [|c s Hc _ IH]; simpl.
  - destruct b as [|d b']; [done|]. simpl. by rewrite (Hb d b').
  - by rewrite Hc.
Qed.

Lemma sentinel_here_sound s digits :
  sentinel_here s = Some digits →
  ∃ ws b, s = sentinel_marker ++ ws ++ debug_me_at ++ digits ++ b
          ∧ ws ≠ [] ∧ Forall (λ c, is_space c = true) ws
          ∧ digits ≠ [] ∧ Forall (λ d, is_digit d = true) digits
          ∧ (∀ d b', b = d :: b' → is_digit d = false).
Proof.
  unfold sentinel_here.
  destruct (starts_with sentinel_marker s) eqn:E; [|done].
  apply starts_with_inv in E as [t ->]. rewrite drop_app_length.
  destruct t as [|c rest]; [done|].
  destruct (is_space c) eqn:Hc; [|done].
  destruct (starts_with debug_me_at (drop_while is_space rest)) eqn:E; [|done].
  apply starts_with_inv in E as [u Hu]. rewrite Hu, drop_app_length.
  destruct (take_while is_digit u) as [|d ds] eqn:Hd; [done|].
  intros [= <-].
  exists (c :: take_while is_space rest), (drop_while is_digit u).
  split; [|split; [done|split; [|split; [done|split]]]].
  - rewrite <- Hd, take_drop_while, <- Hu, <- app_comm_cons.
    by rewrite take_drop_while.
  - constructor; [done|apply take_while_Forall].
  - rewrite <- Hd. apply take_while_Forall.
  - intros d' b' Hb. by apply drop_while_head in Hb.
Qed.

Lemma sentinel_here_complete ws digits b :
  ws ≠ [] → Forall (λ c, is_space c = true) ws →
  digits ≠ [] → Forall (λ d, is_digit d = true) digits →
  (∀ d b', b = d :: b' → is_digit d = false) →
  sentinel_here (sentinel_marker ++ ws ++ debug_me_at ++ digits ++ b) = Some digits.
Proof.
  intros Hne Hws Hdne Hd Hb. unfold sentinel_here.
  rewrite starts_with_app, drop_app_length.
  destruct Hws as [|c ws Hc Hws]; [done|].
  rewrite <- app_comm_cons, Hc.
  rewrite drop_while_app; [|done|by intros d b' [= <- _]].
  rewrite starts_with_app, drop_app_length, take_while_app by done.
  by destruct digits.
Qed.

Lemma match_sentinel_unfold s :
  match_sentinel s =
  match sentinel_here s with
  | Some digits => Some digits
  | None => match s with
            | [] => None
            | _ :: s' => match_sentinel s'
            end
  end.
Proof. by destruct s. Qed.

Lemma sentinel_here_no_B c s : c ≠ 66%N → sentinel_here (c :: s) = None.
Proof.
  intros Hc. unfold sentinel_here.
  assert (starts_with sentinel_marker (c :: s) = false) as ->; [|done].
  change sentinel_marker with (66%N :: js "ROWSERBROWSERBROWSERBROWSER").
  cbn [starts_with]. apply andb_false_iff. left. by apply N.eqb_neq.
Qed.

Lemma starts_with_long p x t :
  length p ≤ length x → starts_with p (x ++ t) = starts_with p x.
Proof.
  revert x. induction p as [|a p IH]; intros x H; [done|].
  destruct x as [|b x]; cbn [length] in H; [lia|].
  cbn [app starts_with]. rewrite IH by lia. done.
Qed.

Lemma starts_with_short p x :
  length x < length p → starts_with p x = false.
Proof.
  revert x. induction p as [|a p IH]; intros x H; cbn [length] in H; [lia|].
  destruct x as [|b x]; [done|]. cbn [length] in H. cbn [starts_with].
  rewrite IH by lia. apply andb_false_r.
Qed.

Lemma starts_with_stop p x c t :
  length x < length p → ¬ (c ∈ p) → starts_with p (x ++ c :: t) = false.
Proof.
  revert x. induction p as [|a p IH]; intros x H Hc; cbn [length] in H; [lia|].
  rewrite not_elem_of_cons in Hc. destruct Hc as [Hca Hcp].
  destruct x as [|b x]; cbn [app starts_with].
  - apply andb_false_iff. left. apply N.eqb_neq. congruence.
  - cbn [length] in H. rewrite IH by (lia || done). apply andb_false_r.
Qed.

Lemma drop_while_stop f s c t :
  f c = false → drop_while f (s ++ c :: t) = drop_while f s ++ c :: t.
Proof.
  intros Hc. induction s as [|d s IH]; cbn [app drop_while]; [by rewrite Hc|].
  by destruct (f d).
Qed.

Lemma take_while_stop f s c t :
  f c = false → take_while f (s ++ c :: t) = take_while f s.
Proof.
  intros Hc. induction s as [|d s IH]; cbn [app take_while]; [by rewrite Hc|].
  destruct (f d); [by rewrite IH|done].
Qed.

(** A code unit that no part of the expression accepts ends an attempt:
    what follows it cannot turn a failure into a match.  A letter of the
    marker does so once the marker has been read. *)
Lemma sentinel_here_stop x c t :
  is_space c = false → is_digit c = false → ¬ (c ∈ debug_me_at) →
  length sentinel_marker ≤ length x ∨ ¬ (c ∈ sentinel_marker) →
  sentinel_here (x ++ c :: t) = sentinel_here x.
Proof.
  intros Hs Hd Hdm Hm. unfold sentinel_here.
  destruct (decide (length sentinel_marker ≤ length x)) as [Hlen|Hlen].
  - rewrite starts_with_long, drop_app_le by done.
    destruct (starts_with sentinel_marker x); [|done].
    destruct (drop (length sentinel_marker) x) as [|w r]; cbn [app]; [by rewrite Hs|].
    destruct (is_space w); [|done].
    rewrite drop_while_stop by done.
    set (r' := drop_while is_space r).
    destruct (decide (length debug_me_at ≤ length r')) as [Hr|Hr].
    + rewrite starts_with_long, drop_app_le by done.
      destruct (starts_with debug_me_at r'); [|done].
      by rewrite take_while_stop.
    + rewrite starts_with_stop, starts_with_short by (lia || done). done.
  - destruct Hm as [Hm|Hm]; [done|].
    rewrite starts_with_stop, starts_with_short by (lia || done). done.
Qed.

(** An attempt that begins inside a marker and runs into the marker of a
    line fails: where the white space should be there is a letter. *)
Lemma sentinel_here_overlap x t :
  x ≠ [] → length x < length sentinel_marker →
  sentinel_here (x ++ sentinel_marker ++ t) = None.
Proof.
  intros Hne Hlen. unfold sentinel_here.
  destruct (starts_with sentinel_marker (x ++ sentinel_marker ++ t)); [|done].
  rewrite drop_app_ge by lia.
  assert (length sentinel_marker - length x < length sentinel_marker) as Hj
    by (destruct x; [done|cbn [length]; lia]).
  change (length sentinel_marker) with 28 in *.
  set (j := 28 - length x) in *. clearbody j.
  do 28 (destruct j as [|j]; [by vm_compute|]). lia.
Qed.

Lemma sentinel_here_text digits r :
  digits ≠ [] → Forall (λ d, is_digit d = true) digits →
  (∀ d r', r = d :: r' → is_digit d = false) →
  sentinel_here (sentinel_text digits ++ r) = Some digits.
Proof.
  intros Hne Hd Hr. unfold sentinel_text. rewrite <- app_assoc.
  change (32%N :: debug_me_at ++ digits) with ([32%N] ++ debug_me_at ++ digits).
  rewrite <- !app_assoc. apply sentinel_here_complete; try done.
  by repeat constructor.
Qed.

Lemma sentinel_text_ascii digits :
  Forall (λ d, is_digit d = true) digits →
  Forall (λ b, (b < 128)%N) (sentinel_text digits).
Proof.
  intros Hd. unfold sentinel_text.
  apply Forall_app. split; [by vm_compute; repeat constructor|].
  constructor; [done|]. apply Forall_app. split; [by vm_compute; repeat constructor|].
  eapply Forall_impl; [exact Hd|]. intros d E. unfold is_digit, in_range in E.
  apply andb_true_iff in E as [_ E]. apply N.leb_le in E. lia.
Qed.

(** A match leaves its mark: somewhere in the text the expression matches
    at the head, and the head is the letter B. *)
Lemma match_sentinel_position s digits :
  match_sentinel s = Some digits →
  ∃ p q, s = p ++ 66%N :: q ∧ sentinel_here (66%N :: q) = Some digits.
Proof.
  induction s as [|c s IH]; rewrite match_sentinel_unfold; [done|].
  destruct (sentinel_here (c :: s)) as [ds|] eqn:E.
  - intros [= ->]. exists [], s.
    destruct (N.eq_dec c 66%N) as [->|Hc]; [done|].
    by rewrite sentinel_here_no_B in E.
  - intros H. destruct (IH H) as (p & q & -> & Hq). by exists (c :: p), q.
Qed.

(** A match survives when text is put before or after. *)
Lemma sentinel_here_extend s t digits :
  sentinel_here s = Some digits → sentinel_here (s ++ t) ≠ None.
Proof.
  intros H. apply sentinel_here_sound in H
    as (ws & b & -> & Hws & Hsp & Hne & Hd & Hb).
  destruct b as [|d b].
  - rewrite app_nil_r, <- !app_assoc.
    rewrite <- (take_drop_while is_digit t), (app_assoc digits).
    rewrite sentinel_here_complete; try done.
    + by destruct digits.
    + apply Forall_app. split; [done|apply take_while_Forall].
    + intros d b' E. by apply drop_while_head in E.
  - rewrite <- !app_assoc. rewrite sentinel_here_complete; try done.
    intros d' b' [= <- _]. by apply (Hb d b).
Qed.

Lemma match_sentinel_extend s t :
  match_sentinel s ≠ None → match_sentinel (s ++ t) ≠ None.
Proof.
  induction s as [|c s IH]; [done|].
  rewrite <- app_comm_cons.
  rewrite (match_sentinel_unfold (c :: s)), (match_sentinel_unfold (c :: s ++ t)).
  destruct (sentinel_here (c :: s)) as [ds|] eqn:E.
  - intros _. apply (sentinel_here_extend _ t) in E.
    rewrite <- app_comm_cons in E. by destruct (sentinel_here (c :: s ++ t)).
  - intros H. destruct (sentinel_here (c :: s ++ t)); [done|by apply IH].
Qed.

Lemma match_sentinel_after p s :
  match_sentinel s ≠ None → match_sentinel (p ++ s) ≠ None.
Proof.
  intros H. induction p as [|c p IH]; [done|].
  rewrite <- app_comm_cons, match_sentinel_unfold.
  by destruct (sentinel_here (c :: p ++ s)).
Qed.

(** A text without a match, then a whole sentinel: the leftmost match is
    the sentinel.  No attempt that begins in the text before it succeeds. *)
Lemma match_sentinel_text e f digits r :
  match_sentinel e = None → f = [] ∨ f = [0xFFFD%N] →
  digits ≠ [] → Forall (λ d, is_digit d = true) digits →
  (∀ d r', r = d :: r' → is_digit d = false) →
  match_sentinel (e ++ f ++ sentinel_text digits ++ r) = Some digits.
Proof.
  intros He Hf Hne Hd Hr. induction e as [|c e IH].
  - cbn [app]. destruct Hf as [-> | ->]; cbn [app].
    + by rewrite match_sentinel_unfold, sentinel_here_text.
    + rewrite match_sentinel_unfold, sentinel_here_no_B by done.
      by rewrite match_sentinel_unfold, sentinel_here_text.
  - rewrite match_sentinel_unfold in He.
    destruct (sentinel_here (c :: e)) eqn:Hc; [done|].
    rewrite <- app_comm_cons, match_sentinel_unfold.
    assert (sentinel_here (c :: e ++ f ++ sentinel_text digits ++ r) = None) as ->;
      [|by apply IH].
    destruct Hf as [-> | ->]; cbn [app].
    + unfold sentinel_text. rewrite <- app_assoc, (app_comm_cons e _ c).
      destruct (decide (length sentinel_marker ≤ length (c :: e))) as [Hlen|Hlen].
      * assert (∀ t, sentinel_marker ++ t
                     = 66%N :: js "ROWSERBROWSERBROWSERBROWSER" ++ t) as -> by done.
        rewrite sentinel_here_stop; [done|done|done| |by left].
        refine (bool_decide_unpack _ _); by vm_compute.
      * apply sentinel_here_overlap; [done|lia].
    + rewrite (app_comm_cons e _ c).
      rewrite sentinel_here_stop; [done|done|done| |right].
      * refine (bool_decide_unpack _ _); by vm_compute.
      * refine (bool_decide_unpack _ _); by vm_compute.
Qed.

(** A match in the text of some bytes is a match in the text of every
    buffer that holds these bytes: the letter B that opens it is a byte of
    its own, and from it on the bytes are decoded as before. *)
Lemma match_sentinel_inside x c y :
  match_sentinel (decoder_write c) ≠ None →
  match_sentinel (decoder_write (x ++ c ++ y)) ≠ None.
Proof.
  intros H. destruct (match_sentinel (decoder_write c)) as [digits|] eqn:E; [|done].
  apply match_sentinel_position in E as (p & q & E & Hq).
  apply (decoder_split _ _ _ _ utf8_init_ok) in E as (c1 & c2 & -> & ->).
  rewrite <- app_assoc, <- app_comm_cons, app_assoc.
  destruct (decoder_write_ascii_run (x ++ c1) [66%N] (c2 ++ y))
    as (f & _ & E); [by repeat constructor|done|].
  cbn [app] in E. rewrite E, (decoder_write_app c2 y).
  rewrite (app_assoc (decoder_write (x ++ c1))). apply match_sentinel_after.
  rewrite app_comm_cons. apply match_sentinel_extend.
  by rewrite match_sentinel_unfold, Hq.
Qed.

Lemma match_sentinel_chunk_of bufs rest c :
  c ∈ bufs →
  match_sentinel (decoder_write (concat bufs ++ rest)) = None →
  match_sentinel (decoder_write c) = None.
Proof.
  intros Hin H. apply list_elem_of_split in Hin as (l1 & l2 & ->).
  destruct (match_sentinel (decoder_write c)) eqn:E; [|done]. exfalso.
  rewrite concat_app in H. cbn [concat] in H. rewrite <- !app_assoc in H.
  revert H. apply match_sentinel_inside. by rewrite E.
Qed.

(** *** The listener over a stream *)

Lemma on_stderr_data_match l c digits :
  match_sentinel (chunk_text c) = Some digits →
  on_stderr_data l c
  = {| windowsUsed := windowsUsed l; browserProcessPid := Some (parseInt digits) |}.
Proof. intros H. unfold on_stderr_data. destruct c; simpl in H; by rewrite H. Qed.

Lemma on_stderr_data_no_match l c :
  match_sentinel (chunk_text c) = None → on_stderr_data l c = l.
Proof. intros H. unfold on_stderr_data. destruct c; simpl in H; by rewrite H. Qed.

Lemma receive_no_match l chunks :
  Forall (λ c, match_sentinel (chunk_text c) = None) chunks → receive l chunks = l.
Proof.
  intros H. revert l. induction H as [|c chunks Hc _ IH]; intros l; [done|].
  unfold receive in *. cbn [foldl]. by rewrite on_stderr_data_no_match, IH.
Qed.

Lemma buffers_no_match bufs :
  Forall (λ c, match_sentinel (decoder_write c) = None) bufs →
  Forall (λ c, match_sentinel (chunk_text c) = None) (ChunkBuffer <$> bufs).
Proof. intros H. by apply Forall_fmap. Qed.

(** C9, the claim as the spec states it fails: the listener decodes and
    matches every chunk on its own.  The whole sentinel line for PID 1234
    yields 1234; the same bytes cut inside the digits yield 12; cut inside
    the marker they yield nothing. *)
Lemma stderr_chunk_boundaries_matter :
  let whole := sentinel_line (js "1234") in
  take 42 whole ++ drop 42 whole = whole
  ∧ take 14 whole ++ drop 14 whole = whole
  ∧ browserProcessPid (receive new_launcher [ChunkBuffer whole]) = Some 1234%N
  ∧ browserProcessPid
      (receive new_launcher [ChunkBuffer (take 42 whole); ChunkBuffer (drop 42 whole)])
    = Some 12%N
  ∧ browserProcessPid
      (receive new_launcher [ChunkBuffer (take 14 whole); ChunkBuffer (drop 14 whole)])
    = None
  ∧ receive new_launcher [ChunkBuffer (take 42 whole); ChunkBuffer (drop 42 whole)]
    ≠ receive new_launcher [ChunkBuffer whole].
Proof. repeat split; vm_compute; congruence. Qed.

(** C9 (amended): the listener recovers the PID from a chunk that holds the
    whole sentinel.  For every byte stream that holds one sentinel line (the
    sentinel, from the marker to the last digit of the PID, with no digit
    after it; the bytes before it, and the bytes after it, hold no sentinel
    of their own and are any bytes otherwise, multi-byte characters
    included), and for every way of splitting the stream into chunks that
    leaves the sentinel inside one chunk, processing the chunks recovers the
    PID of the sentinel, as processing the stream as a single chunk does. *)
Theorem stderr_pid_when_line_in_one_chunk
  (l : launcher) (before after : list (list N)) (a b digits : list N) :
  digits ≠ [] → Forall (λ d, is_digit d = true) digits →
  match_sentinel (decoder_write (concat before ++ a)) = None →
  match_sentinel (decoder_write (b ++ concat after)) = None →
  (∀ c rest, b ++ concat after = c :: rest → is_digit c = false) →
  let chunks := before ++ [a ++ sentinel_text digits ++ b] ++ after in
  receive l (ChunkBuffer <$> chunks) = receive l [ChunkBuffer (concat chunks)]
  ∧ ∃ pid,
      chunk_pid (ChunkBuffer (sentinel_text digits)) = Some pid
      ∧ browserProcessPid (receive l (ChunkBuffer <$> chunks)) = Some pid
      ∧ browserProcessPid (receive l [ChunkBuffer (concat chunks)]) = Some pid.
Proof.
  intros Hne Hd Hbefore Hafter Hend chunks.
  assert (Forall (λ d, (d < 128)%N) (sentinel_text digits)) as Hascii
    by (by apply sentinel_text_ascii).
  assert (sentinel_text digits ≠ []) as Htext by done.
  assert (∀ bytes, (∀ c t, bytes = c :: t → is_digit c = false) →
                   ∀ d r, decoder_write bytes = d :: r → is_digit d = false) as Hhead.
  { intros bytes Hbytes d r. apply utf8_run_head; [apply utf8_init_ok|by right]. }
  assert (receive l (ChunkBuffer <$> chunks)
          = {| windowsUsed := windowsUsed l;
               browserProcessPid := Some (parseInt digits) |}) as Hchunks.
  { subst chunks. rewrite !fmap_app. unfold receive. rewrite !foldl_app.
    fold (receive l (ChunkBuffer <$> before)).
    rewrite (receive_no_match l).
    2:{ apply buffers_no_match, Forall_forall. intros c Hc.
        by apply (match_sentinel_chunk_of before a). }
    cbn [fmap list_fmap foldl].
    rewrite (on_stderr_data_match l _ digits).
    2:{ cbn [chunk_text].
        destruct (decoder_write_ascii_run a (sentinel_text digits) b Hascii Htext)
          as (f & Hf & ->).
        apply match_sentinel_text; try done.
        - destruct (match_sentinel (decoder_write a)) eqn:E; [|done]. exfalso.
          revert Hbefore. rewrite <- (app_nil_r a) at 1.
          apply match_sentinel_inside. by rewrite E.
        - apply Hhead. intros c t ->. by apply (Hend c (t ++ concat after)). }
    apply receive_no_match, buffers_no_match, Forall_forall. intros c Hc.
    apply (match_sentinel_chunk_of after []); [done|].
    rewrite app_nil_r.
    destruct (match_sentinel (decoder_write (concat after))) eqn:E; [|done]. exfalso.
    revert Hafter. rewrite <- (app_nil_r (concat after)).
    apply match_sentinel_inside. by rewrite E. }
  assert (receive l [ChunkBuffer (concat chunks)]
          = {| windowsUsed := windowsUsed l;
               browserProcessPid := Some (parseInt digits) |}) as Hwhole.
  { unfold receive. cbn [foldl]. apply on_stderr_data_match.
    subst chunks. rewrite !concat_app. cbn [concat chunk_text].
    rewrite app_nil_r, <- !app_assoc, (app_assoc (concat before)).
    destruct (decoder_write_ascii_run (concat before ++ a) (sentinel_text digits)
                (b ++ concat after) Hascii Htext) as (f & Hf & ->).
    apply match_sentinel_text; try done. by apply Hhead. }
  rewrite Hchunks, Hwhole. split; [done|].
  exists (parseInt digits). split; [|done].
  unfold chunk_pid. cbn [chunk_text].
  assert (decoder_write (sentinel_text digits) = sentinel_text digits) as ->.
  { unfold decoder_write. rewrite <- (app_nil_r (sentinel_text digits)) at 1.
    rewrite utf8_run_ascii by done. cbn [utf8_run]. rewrite app_nil_r.
    by apply utf16_units_ascii. }
  rewrite <- (app_nil_r (sentinel_text digits)).
  by rewrite match_sentinel_unfold, sentinel_here_text.
Qed.

Lemma stderr_pid_when_line_in_one_chunk_witness :
  let chunks := [js "BROWSER wmic: "; [0xE2; 0x82]%N]
                ++ [[0xAC; 10]%N ++ js "Bob" ++ sentinel_text (js "1234") ++ []]
                ++ [[10%N] ++ js "BROWSERBROWSER done"; js "B"; [10%N]] in
  receive new_launcher (ChunkBuffer <$> chunks)
  = receive new_launcher [ChunkBuffer (concat chunks)].
Proof.
  refine (proj1 (stderr_pid_when_line_in_one_chunk new_launcher
            [js "BROWSER wmic: "; [0xE2; 0x82]%N]
            [[10%N] ++ js "BROWSERBROWSER done"; js "B"; [10%N]]
            ([0xAC; 10]%N ++ js "Bob") [] (js "1234")
            _ _ _ _ _)).
  - discriminate.
  - repeat constructor.
  - reflexivity.
  - reflexivity.
  - intros c rest [= <- _]. reflexivity.
Defined.

Example sanitize_single :
  sanitizeJSFlags (js "--js-flags='--foo --bar'") = js "--js-flags=--foo --bar".
Proof. reflexivity. Qed.

Example sanitize_double :
  sanitizeJSFlags (js "--js-flags=" ++ double_quote :: js "--foo --bar" ++ [double_quote])
  = js "--js-flags=--foo --bar".
Proof. reflexivity. Qed.

Example sanitize_plain :
  sanitizeJSFlags (js "--js-flags=--expose-gc='true'") = js "--js-flags=--expose-gc='true'".
Proof. reflexivity. Qed.

Example sanitize_mismatched :
  sanitizeJSFlags (js "--js-flags='--foo" ++ [double_quote])
  = js "--js-flags=--foo" ++ [double_quote].
Proof. reflexivity. Qed.

Example canary_headless_options :
  (getOptions true EdgeCanaryHeadless None 1%positive ({[ 1%positive := [] ]} : store)).1
  = edge_cli_options
    ++ [js "--js-flags=--nocrankshaft --noopt"; js "--headless"; js "--disable-gpu";
        js "--disable-dev-shm-usage"; js "--no-sandbox";
        js "--remote-debugging-port=9222"].
Proof. vm_compute. reflexivity. Qed.

(** * Further properties of the module *)

(** ** Flags *)

(** X1.  [isJSFlags] holds exactly of the strings that begin with
    [--js-flags=]. *)
Theorem isJSFlags_begins_with (flag : jsstring) :
  isJSFlags flag = true ↔ ∃ value, flag = js "--js-flags=" ++ value.
Proof. apply isJSFlags_iff. Qed.

Lemma strip_end_length_ge q s : length s ≤ S (length (strip_end q s)).
Proof.
  induction s as [|c s IH]; simpl; [lia|].
  destruct s as [|d s]; [destruct (c =? q)%N; simpl; lia|].
  simpl in *. lia.
Qed.

(** X2.  [sanitizeJSFlags] removes at most two code units and adds none; it
    removes at least one from every flag that holds [--js-flags=] followed
    by a quote. *)
Theorem sanitizeJSFlags_length (flag : jsstring) :
  length (sanitizeJSFlags flag) ≤ length flag
  ∧ length flag ≤ 2 + length (sanitizeJSFlags flag)
  ∧ (quoted_js_flags_in flag → length (sanitizeJSFlags flag) < length flag).
Proof.
  split; [|split]; [| |apply sanitize_shrinks].
  - unfold sanitizeJSFlags. destruct (exec_js_flags_quote flag) as [q|] eqn:E; [|done].
    pose proof (replace_first_quote_length _ _ E).
    pose proof (strip_end_length q
      (replace_first (js_flags_prefix ++ [q]) js_flags_prefix flag)).
    simpl in *. lia.
  - unfold sanitizeJSFlags. destruct (exec_js_flags_quote flag) as [q|] eqn:E; [|lia].
    pose proof (replace_first_quote_length _ _ E).
    pose proof (strip_end_length_ge q
      (replace_first (js_flags_prefix ++ [q]) js_flags_prefix flag)).
    simpl in *. lia.
Qed.

Lemma sanitizeJSFlags_length_witness :
  length (sanitizeJSFlags (js "--js-flags='--foo --bar'"))
  < length (js "--js-flags='--foo --bar'").
Proof.
  apply (sanitizeJSFlags_length (js "--js-flags='--foo --bar'")).
  exists [], single_quote, (js "--foo --bar'"). split; reflexivity.
Defined.

(** X3.  A flag that begins with [--js-flags=] still does after
    [sanitizeJSFlags]: the prefix itself is never touched. *)
Theorem sanitizeJSFlags_keeps_prefix (flag : jsstring) :
  isJSFlags flag = true → isJSFlags (sanitizeJSFlags flag) = true.
Proof. apply isJSFlags_sanitize. Qed.

Lemma sanitizeJSFlags_keeps_prefix_witness :
  isJSFlags (sanitizeJSFlags (js "--js-flags='")) = true.
Proof. apply (sanitizeJSFlags_keeps_prefix (js "--js-flags='")). reflexivity. Defined.

(** ** Option builders *)

(** X4.  [EdgeBrowser]'s [_getOptions] returns the nine fixed options
    followed by the launcher's flags in their order, each flag that begins
    with [--js-flags=] sanitized and every other flag as it was; the list
    returned ends with exactly the contents it leaves in the array. *)
Theorem getOptions_base_shape (r : loc) (σ : store) :
  let result := (_getOptions r σ).1 in
  result = edge_cli_options
           ++ map (λ f, if isJSFlags f then sanitizeJSFlags f else f) (deref σ r)
  ∧ result = edge_cli_options ++ deref (_getOptions r σ).2 r
  ∧ length result = 9 + length (deref σ r).
Proof.
  cbv zeta. rewrite getOptions_base_result. split; [done|]. split.
  - unfold _getOptions. cbn [snd]. by rewrite deref_insert, forEach_sanitize_map.
  - by rewrite length_app, length_map.
Qed.

Lemma getCanaryOptions_result args_flags (parent : M (list jsstring)) (σ : store) :
  getCanaryOptions args_flags parent σ
  = ((parent σ).1 ++ [canary_flag (from_option (deref σ) [] args_flags)], (parent σ).2).
Proof.
  unfold getCanaryOptions, canary_flag, bind, ret. by destruct (parent σ).
Qed.

(** What [augment] can leave in [augmentedFlags]. *)
Lemma foldl_augment_shape flags acc :
  (acc = JUndefined
   ∨ ∃ f, isJSFlags f = true ∧ acc = JStr (sanitizeJSFlags f ++ js " " ++ customFlags)) →
  foldl augment acc flags = JUndefined
  ∨ ∃ f, isJSFlags f = true
         ∧ foldl augment acc flags = JStr (sanitizeJSFlags f ++ js " " ++ customFlags).
Proof.
  revert acc. induction flags as [|g flags IH]; intros acc H; [done|].
  cbn [foldl]. apply IH. unfold augment. destruct (isJSFlags g) eqn:E; [|done].
  right. by exists g.
Qed.

Lemma canary_flag_shape flags :
  isJSFlags (canary_flag flags) = true
  ∧ ∃ value, canary_flag flags = js_flags_prefix ++ value ++ customFlags.
Proof.
  unfold canary_flag.
  destruct (foldl_augment_shape flags JUndefined) as [->|(f & Hf & ->)]; [by left| |].
  - split; [done|]. by exists [].
  - apply isJSFlags_sanitize, isJSFlags_iff in Hf as [t Ht]. rewrite Ht.
    split.
    + apply isJSFlags_iff. exists (t ++ js " " ++ customFlags).
      by rewrite <- app_assoc.
    + exists (t ++ js " "). by rewrite <- !app_assoc.
Qed.

(** The options of every variant, in one formula. *)
Lemma getOptions_formula (isWsl : bool) (v : variant) args_flags r (σ : store) :
  let base := edge_cli_options ++ map sanitize_flag (deref σ r)
              ++ (if is_canary v
                  then [canary_flag (from_option (deref σ) [] args_flags)] else []) in
  let merged := base ++ headless_flags ++ (if isWsl then [js "--no-sandbox"] else []) in
  (getOptions isWsl v args_flags r σ).1
  = if is_headless v
    then merged ++ (if existsb isRemoteDebuggingFlag merged
                    then ([] : list jsstring) else [default_port_flag])
    else base.
Proof.
  cbv zeta. destruct v; cbn [getOptions is_headless is_canary];
    rewrite ?getHeadlessOptions_result, ?getCanaryOptions_result; cbn [fst];
    rewrite ?getCanaryOptions_result; cbn [fst];
    rewrite getOptions_base_result, ?app_nil_r, <- ?app_assoc; done.
Qed.

(** X5.  Whatever the variant, the options open with the nine fixed options
    followed by the user's flags, all of them and in their order (those that
    begin with [--js-flags=] sanitized); only the plain variants add
    nothing after them. *)
Theorem getOptions_keeps_user_flags
  (isWsl : bool) (v : variant) (args_flags : option loc) (r : loc) (σ : store) :
  ∃ rest,
    (getOptions isWsl v args_flags r σ).1
    = edge_cli_options
      ++ map (λ f, if isJSFlags f then sanitizeJSFlags f else f) (deref σ r) ++ rest
    ∧ (rest = [] ↔ is_headless v = false ∧ is_canary v = false).
Proof.
  rewrite getOptions_formula. cbv zeta.
  destruct (is_headless v), (is_canary v).
  - eexists. rewrite <- !app_assoc. split; [reflexivity|]. split; [done|by intros [? ?]].
  - eexists. rewrite <- !app_assoc. split; [reflexivity|]. split; [done|by intros [? ?]].
  - eexists. split; [reflexivity|]. split; [done|by intros [? ?]].
  - exists []. split; [reflexivity|]. done.
Qed.

Lemma headless_options_hold
  (isWsl : bool) (v : variant) (args_flags : option loc) (r : loc) (σ : store) :
  is_headless v = true →
  let opts := (getOptions isWsl v args_flags r σ).1 in
  Forall (λ flag, flag ∈ opts) headless_flags
  ∧ (isWsl = true → js "--no-sandbox" ∈ opts)
  ∧ ∃ flag, flag ∈ opts ∧ occurs_in remote_debugging_port flag.
Proof.
  intros Hv. cbv zeta. rewrite getOptions_formula, Hv. cbv zeta.
  set (base := edge_cli_options ++ _).
  set (merged := base ++ headless_flags ++ _).
  split; [|split].
  - apply Forall_forall. intros flag Hin.
    apply elem_of_app. left. subst merged. rewrite !elem_of_app. auto.
  - intros ->. apply elem_of_app. left. subst merged.
    rewrite !elem_of_app. right. right. by left.
  - destruct (existsb isRemoteDebuggingFlag merged) eqn:E.
    + apply existsb_remote_debugging in E as (flag & a & b & Hin & ->).
      exists (a ++ remote_debugging_port ++ b). rewrite app_nil_r.
      split; [done|]. by exists a, b.
    + exists default_port_flag. split; [apply elem_of_app; right; by left|].
      by exists [], (js "9222").
Qed.

(** X6.  The options of a headless variant always hold [--headless],
    [--disable-gpu] and [--disable-dev-shm-usage], hold [--no-sandbox] under
    WSL, and hold some flag with [--remote-debugging-port=] in it, the
    default one or the user's. *)
Theorem headless_options_complete
  (isWsl : bool) (v : variant) (args_flags : option loc) (r : loc) (σ : store) :
  is_headless v = true →
  let opts := (getOptions isWsl v args_flags r σ).1 in
  js "--headless" ∈ opts
  ∧ js "--disable-gpu" ∈ opts
  ∧ js "--disable-dev-shm-usage" ∈ opts
  ∧ (isWsl = true → js "--no-sandbox" ∈ opts)
  ∧ ∃ flag a b, flag ∈ opts ∧ flag = a ++ js "--remote-debugging-port=" ++ b.
Proof.
  intros Hv.
  destruct (headless_options_hold isWsl v args_flags r σ Hv)
    as (Hall & Hwsl & flag & Hin & a & b & Hflag).
  cbv zeta. unfold headless_flags in Hall.
  apply Forall_cons in Hall as [H1 Hall].
  apply Forall_cons in Hall as [H2 Hall].
  apply Forall_cons in Hall as [H3 _].
  repeat split; try done.
  by exists flag, a, b.
Qed.

Lemma headless_options_complete_witness :
  let opts := (getOptions true EdgeDevHeadless None 1%positive (∅ : store)).1 in
  js "--headless" ∈ opts
  ∧ js "--disable-gpu" ∈ opts
  ∧ js "--disable-dev-shm-usage" ∈ opts
  ∧ js "--no-sandbox" ∈ opts.
Proof.
  destruct (headless_options_complete true EdgeDevHeadless None 1%positive
              (∅ : store) eq_refl) as (H1 & H2 & H3 & H4 & _).
  exact (conj H1 (conj H2 (conj H3 (H4 eq_refl)))).
Defined.

Lemma filter_isJSFlags_sanitize flags :
  length (List.filter isJSFlags (map sanitize_flag flags))
  = length (List.filter isJSFlags flags).
Proof.
  induction flags as [|f flags IH]; [done|].
  cbn [map List.filter]. unfold sanitize_flag at 1.
  destruct (isJSFlags f) eqn:E.
  - rewrite (isJSFlags_sanitize f E). simpl. by rewrite IH.
  - by rewrite E.
Qed.

(** X7.  A canary variant passes one [--js-flags=] entry more than the user
    gave: the user's flags stay where they were, after the fixed options
    (those that begin with [--js-flags=] sanitized); right after them comes
    one further entry, which begins with [--js-flags=] and ends with
    [--nocrankshaft --noopt]; nothing that follows it begins with
    [--js-flags=]. *)
Theorem canary_options_js_flags
  (isWsl : bool) (v : variant) (args_flags : option loc) (r : loc) (σ : store) :
  is_canary v = true →
  let opts := (getOptions isWsl v args_flags r σ).1 in
  length (List.filter isJSFlags opts) = S (length (List.filter isJSFlags (deref σ r)))
  ∧ ∃ value after,
      opts = edge_cli_options
             ++ map (λ f, if isJSFlags f then sanitizeJSFlags f else f) (deref σ r)
             ++ (js "--js-flags=" ++ value ++ js "--nocrankshaft --noopt") :: after
      ∧ Forall (λ f, isJSFlags f = false) after.
Proof.
  intros Hv. cbv zeta. rewrite getOptions_formula, Hv. cbv zeta.
  set (entry := canary_flag _).
  destruct (canary_flag_shape (from_option (deref σ) [] args_flags))
    as [Hjs [value Hvalue]]. fold entry in Hjs, Hvalue.
  split.
  - destruct (is_headless v).
    + destruct (existsb _ _), isWsl;
        rewrite !List.filter_app, !length_app, filter_isJSFlags_sanitize;
        cbn [List.filter]; rewrite Hjs; simpl; lia.
    + rewrite !List.filter_app, !length_app, filter_isJSFlags_sanitize.
      cbn [List.filter]. rewrite Hjs. simpl. lia.
  - exists value. change (js "--js-flags=") with js_flags_prefix.
    change (js "--nocrankshaft --noopt") with customFlags.
    rewrite <- Hvalue. fold sanitize_flag.
    destruct (is_headless v).
    + eexists. rewrite <- !app_assoc. split; [reflexivity|].
      destruct (existsb _ _), isWsl; repeat constructor.
    + by exists [].
Qed.

Lemma canary_options_js_flags_witness :
  length (List.filter isJSFlags
            (getOptions false EdgeCanary (Some 1%positive) 1%positive
               ({[ 1%positive := [js "--js-flags=--x"; js "--y"] ]} : store)).1) = 2.
Proof.
  exact (proj1 (canary_options_js_flags false EdgeCanary (Some 1%positive) 1%positive
                  ({[ 1%positive := [js "--js-flags=--x"; js "--y"] ]} : store) eq_refl)).
Defined.

(** ** Launch *)

(** X8.  Under WSL a headless variant whose Linux browser is installed is
    always started natively with the Linux command, whatever [DISPLAY]
    holds: its options include [--headless]. *)
Theorem headless_variant_never_bridged_when_installed
  (v : variant) (which : jsstring → option jsstring)
  (process_env : string → option jsstring) (DEFAULT_CMD_linux getCommand : jsval)
  (args_flags : option loc) (r : loc) (userDataDir url : jsstring)
  (l : launcher) (σ : store) :
  is_headless v = true →
  linux_installed which DEFAULT_CMD_linux →
  ∃ args,
    (_start true which process_env DEFAULT_CMD_linux getCommand
       (getOptions true v args_flags r) userDataDir url l σ).1.2
    = ExecNative DEFAULT_CMD_linux args.
Proof.
  intros Hv Hi.
  pose proof (start_spawn true which process_env DEFAULT_CMD_linux getCommand
                (getOptions true v args_flags r) userDataDir url l σ) as S.
  cbv zeta in S.
  destruct (takes_bridge true which process_env DEFAULT_CMD_linux
              (getOptions true v args_flags r σ).1) eqn:B; [|done].
  apply takes_bridge_iff in B as [_ [NI|(_ & NH & _)]]; [done|].
  exfalso. apply NH.
  destruct (headless_options_hold true v args_flags r σ Hv) as [H _].
  by inversion H.
Qed.

Lemma headless_variant_never_bridged_when_installed_witness :
  ∃ args,
    (_start true (λ _, Some (js "/usr/bin/msedge")) (λ _, None)
       (JStr (js "msedge")) (JStr (js "msedge"))
       (getOptions true EdgeHeadless None 1%positive)
       (js "/tmp/karma") (js "http://localhost:9876") new_launcher (∅ : store)).1.2
    = ExecNative (JStr (js "msedge")) args.
Proof.
  apply (headless_variant_never_bridged_when_installed EdgeHeadless
           (λ _, Some (js "/usr/bin/msedge")) (λ _, None) (JStr (js "msedge"))
           (JStr (js "msedge")) None 1%positive (js "/tmp/karma")
           (js "http://localhost:9876") new_launcher (∅ : store)).
  - reflexivity.
  - exists (js "msedge"), (js "/usr/bin/msedge"). by repeat split.
Defined.

Lemma start_run
  (isWsl : bool) (which : jsstring → option jsstring)
  (process_env : string → option jsstring)
  (DEFAULT_CMD_linux getCommand : jsval) (this_getOptions : M (list jsstring))
  (userDataDir url : jsstring) (l : launcher) (σ : store) :
  let run := _start isWsl which process_env DEFAULT_CMD_linux getCommand
               this_getOptions userDataDir url l σ in
  let bridged := takes_bridge isWsl which process_env DEFAULT_CMD_linux
                   ((this_getOptions σ).1) in
  let twice := isWsl && negb (linux_not_installed which DEFAULT_CMD_linux) in
  let σ1 := if twice then (this_getOptions σ).2 else σ in
  windowsUsed run.1.1 = bridged || windowsUsed l
  ∧ browserProcessPid run.1.1 = browserProcessPid l
  ∧ run.2 = (this_getOptions σ1).2
  ∧ run.1.2 = (if bridged then SpawnBridge (this_getOptions σ1).1
               else ExecNative (if isWsl then DEFAULT_CMD_linux else getCommand)
                      (url :: (js "--user-data-dir=" ++ userDataDir)
                           :: (this_getOptions σ1).1)).
Proof.
  cbv zeta. unfold takes_bridge, _start, useWindowsWSL, useNormal, bind, ret.
  destruct isWsl; cbn [andb negb].
  - destruct (linux_not_installed which DEFAULT_CMD_linux); cbn [orb negb].
    + destruct (this_getOptions σ) as [opts σ']. done.
    + destruct (this_getOptions σ) as [opts σ']. cbn [fst snd].
      destruct (negb (includes (js "--headless") opts)
                && negb (truthy (env process_env "DISPLAY")));
        destruct (this_getOptions σ') as [opts' σ'']; cbn [fst snd]; done.
  - destruct (this_getOptions σ) as [opts σ']. done.
Qed.


(** ** The error stream and the kill hook *)

(** X10.  The expression of the listener finds a match in a text exactly
    when the text holds a sentinel: the marker, at least one white space,
    [debug me @ ] and at least one digit; what it captures is a whole,
    non-empty run of digits of such a sentinel. *)
Theorem match_sentinel_spec (s : jsstring) :
  (∀ digits, match_sentinel s = Some digits → holds_sentinel s digits)
  ∧ (∀ digits, holds_sentinel s digits → match_sentinel s ≠ None).
Proof.
  split.
  - induction s as [|c s IH]; intros digits; rewrite match_sentinel_unfold.
    + done.
    + destruct (sentinel_here (c :: s)) as [ds|] eqn:E.
      * intros [= ->]. apply sentinel_here_sound in E as (ws & b & E & ?).
        exists [], ws, b. by rewrite app_nil_l.
      * intros H. destruct (IH _ H) as (a & ws & b & -> & ?).
        by exists (c :: a), ws, b.
  - intros digits (a & ws & b & -> & Hne & Hws & Hdne & Hd & Hb).
    induction a as [|c a IH].
    + rewrite app_nil_l, match_sentinel_unfold.
      by rewrite sentinel_here_complete.
    + rewrite <- app_comm_cons, match_sentinel_unfold.
      by destruct (sentinel_here _).
Qed.

Lemma match_sentinel_spec_witness :
  holds_sentinel (js "x BROWSERBROWSERBROWSERBROWSER  debug me @ 77;") (js "77").
Proof.
  apply (match_sentinel_spec (js "x BROWSERBROWSERBROWSERBROWSER  debug me @ 77;")).
  reflexivity.
Defined.

Lemma receive_cons l c chunks :
  receive l (c :: chunks) = receive (on_stderr_data l c) chunks.
Proof. done. Qed.

Lemma on_stderr_data_fields l c :
  windowsUsed (on_stderr_data l c) = windowsUsed l
  ∧ browserProcessPid (on_stderr_data l c)
    = match chunk_pid c with
      | Some pid => Some pid
      | None => browserProcessPid l
      end.
Proof.
  unfold on_stderr_data, chunk_pid.
  destruct c; simpl; by destruct (match_sentinel _).
Qed.

Lemma receive_fields (l : launcher) (chunks : list chunk) :
  browserProcessPid (receive l chunks)
  = match last (omap chunk_pid chunks) with
    | Some pid => Some pid
    | None => browserProcessPid l
    end
  ∧ windowsUsed (receive l chunks) = windowsUsed l.
Proof.
  revert l. induction chunks as [|c chunks IH]; intros l; [done|].
  rewrite receive_cons. destruct (IH (on_stderr_data l c)) as [-> ->].
  destruct (on_stderr_data_fields l c) as [-> ->].
  split; [|done]. cbn [omap list_omap].
  destruct (chunk_pid c) as [pid|]; [|done].
  rewrite last_cons. by destruct (last _).
Qed.

(** X11.  Over any sequence of chunks the listener keeps the PID of the
    last chunk whose own text matches, keeps the PID it had when no chunk
    matches, and never changes [windowsUsed]. *)
Theorem receive_last_match (l : launcher) (chunks : list chunk) :
  browserProcessPid (receive l chunks)
  = match last (omap chunk_pid chunks) with
    | Some pid => Some pid
    | None => browserProcessPid l
    end
  ∧ windowsUsed (receive l chunks) = windowsUsed l.
Proof. apply receive_fields. Qed.

(** X12.  The three hooks together: after [_start], once the listener has
    read a chunk that carries a sentinel and no later chunk carries
    another, the kill hook targets the PID of that sentinel, the number
    [parseInt] makes of its digits (a double; the run is taken to have at
    most 20 digits), with [Taskkill] if the launch was bridged and with
    [process.kill] if it was native; a PID of zero is treated as no PID, and
    no call is made.  The callback is queued in every case. *)
Theorem start_receive_kill
  (isWsl : bool) (which : jsstring → option jsstring)
  (process_env : string → option jsstring)
  (DEFAULT_CMD_linux getCommand : jsval) (this_getOptions : M (list jsstring))
  (userDataDir url : jsstring) (σ : store)
  (before after : list chunk) (c : chunk) (digits : jsstring)
  {callback : Type} (throws : termination → bool) (done : callback) :
  match_sentinel (chunk_text c) = Some digits →
  length digits ≤ 20 →
  Forall (λ c', match_sentinel (chunk_text c') = None) after →
  let started := (_start isWsl which process_env DEFAULT_CMD_linux getCommand
                    this_getOptions userDataDir url new_launcher σ).1.1 in
  let bridged := takes_bridge isWsl which process_env DEFAULT_CMD_linux
                   ((this_getOptions σ).1) in
  let pid := parseInt digits in
  let r := on_kill throws (receive started (before ++ [c] ++ after)) done [] in
  k_terminations r
  = (if (pid =? 0)%N then []
     else [if bridged then Taskkill pid else ProcessKill pid])
  ∧ k_completion r = Normal ∧ k_nextTick r = [done].
Proof.
  intros Hc _ Hafter. cbv zeta.
  set (started := (_start _ _ _ _ _ _ _ _ _ _).1.1).
  assert (windowsUsed started
          = takes_bridge isWsl which process_env DEFAULT_CMD_linux
              ((this_getOptions σ).1)) as Hw.
  { subst started.
    destruct (start_run isWsl which process_env DEFAULT_CMD_linux getCommand
                this_getOptions userDataDir url new_launcher σ) as [-> _].
    by rewrite orb_false_r. }
  assert (receive started (before ++ [c] ++ after)
          = {| windowsUsed := windowsUsed started;
               browserProcessPid := Some (parseInt digits) |}) as ->.
  { unfold receive. rewrite !foldl_app. cbn [foldl].
    fold (receive started before).
    rewrite (on_stderr_data_match _ _ digits Hc).
    rewrite (proj2 (receive_fields started before)).
    by apply receive_no_match. }
  unfold on_kill. cbn [browserProcessPid windowsUsed pid_truthy].
  rewrite Hw. destruct (parseInt digits =? 0)%N; cbn [negb].
  - done.
  - cbn [existsb]. by destruct (throws _).
Qed.

Lemma start_receive_kill_witness :
  k_terminations
    (on_kill (λ _, true)
       (receive
          (_start true (λ _, None) (λ _, None) JUndefined (JStr (js "msedge.exe"))
             (_getOptions 1%positive) (js "/tmp/karma") (js "http://localhost:9876")
             new_launcher (∅ : store)).1.1
          ([] ++ [ChunkBuffer (sentinel_line (js "4242"))] ++ []))
       7 [])
  = [Taskkill 4242].
Proof.
  exact (proj1 (start_receive_kill true (λ _, None) (λ _, None) JUndefined
                  (JStr (js "msedge.exe")) (_getOptions 1%positive) (js "/tmp/karma")
                  (js "http://localhost:9876") (∅ : store) [] []
                  (ChunkBuffer (sentinel_line (js "4242"))) (js "4242")
                  (λ _, true) 7 eq_refl ltac:(simpl; lia) (List.Forall_nil _))).
Defined.

(** ** Path resolvers *)

Lemma getBin_loop_first which pre c post :
  Forall (λ x, ¬ resolved which x) pre → resolved which c →
  getBin_loop which (pre ++ c :: post) = JStr c.
Proof.
  intros Hpre (p & Hp & Hne). induction Hpre as [|x pre Hx _ IH]; cbn [app getBin_loop].
  - rewrite Hp. by destruct p.
  - destruct (which x) as [[|a q]|] eqn:E; [done| |done].
    exfalso. apply Hx. by exists (a :: q).
Qed.

Lemma getBin_loop_none which commands :
  Forall (λ x, ¬ resolved which x) commands → getBin_loop which commands = JUndefined.
Proof.
  induction 1 as [|x commands Hx _ IH]; cbn [getBin_loop]; [done|].
  destruct (which x) as [[|a q]|] eqn:E; [done| |done].
  exfalso. apply Hx. by exists (a :: q).
Qed.

(** X13.  [getBin] answers [null] on every platform but Linux.  On Linux it
    returns the first command of the list that [which] resolves, itself and
    not the resolved path, and [undefined] when [which] resolves none. *)
Theorem getBin_first_resolved
  (process_platform : platform) (which : jsstring → option jsstring)
  (commands : list jsstring) :
  (process_platform ≠ Linux → getBin process_platform which commands = JNull)
  ∧ (process_platform = Linux →
     (∀ pre c post, commands = pre ++ c :: post →
        Forall (λ x, ¬ resolved which x) pre → resolved which c →
        getBin process_platform which commands = JStr c)
     ∧ (Forall (λ x, ¬ resolved which x) commands →
        getBin process_platform which commands = JUndefined)).
Proof.
  split.
  - intros H. by destruct process_platform.
  - intros ->. split.
    + intros pre c post -> Hpre Hc. by apply getBin_loop_first.
    + apply getBin_loop_none.
Qed.

Lemma getBin_first_resolved_witness :
  getBin Linux (λ cmd, if bool_decide (cmd = js "msedge") then Some (js "/usr/bin/msedge")
                       else None)
    [js "microsoft-edge"; js "msedge"]
  = JStr (js "msedge").
Proof.
  apply (proj2 (getBin_first_resolved Linux _ [js "microsoft-edge"; js "msedge"]) eq_refl)
    with (pre := [js "microsoft-edge"]) (post := []).
  - reflexivity.
  - constructor; [|constructor]. intros (p & Hp & _). discriminate Hp.
  - exists (js "/usr/bin/msedge"). split; [reflexivity|discriminate].
Defined.

(** X14.  On Windows [getEdgeExe] probes [LOCALAPPDATA], [PROGRAMFILES] and
    [PROGRAMFILES(X86)] in that order and returns the first candidate that
    is on disk: a variable that is not set is skipped, and so is one whose
    candidate is missing.  On every other platform it returns [null]. *)
Theorem getEdgeExe_first_on_disk
  (process_platform : platform) (process_env : string → option jsstring)
  (path_join : list jsstring → jsstring) (accessSync : jsstring → bool)
  (edgeDirName : jsstring) :
  let names := ["LOCALAPPDATA"; "PROGRAMFILES"; "PROGRAMFILES(X86)"]%string in
  let candidate p := path_join [p; edge_suffix edgeDirName] in
  let result := getEdgeExe process_platform process_env path_join accessSync
                  edgeDirName in
  (process_platform ≠ Win32 → result = JNull)
  ∧ (process_platform = Win32 →
     ∀ earlier name later p,
       names = earlier ++ name :: later →
       process_env name = Some p → accessSync (candidate p) = true →
       (∀ n q, n ∈ earlier → process_env n = Some q →
               accessSync (candidate q) = false) →
       result = JStr (candidate p)).
Proof.
  cbv zeta. split.
  - intros H. by destruct process_platform.
  - intros -> earlier name later p Hnames Hp Hacc Hearlier.
    unfold getEdgeExe, env.
    destruct earlier as [|e1 [|e2 [|e3 earlier]]]; cbn [app] in Hnames; simplify_eq.
    + rewrite Hp. cbn [from_option getEdgeExe_loop]. by rewrite Hacc.
    + destruct (process_env "LOCALAPPDATA") as [q|] eqn:E;
        rewrite Hp; cbn [from_option getEdgeExe_loop].
      * rewrite (Hearlier "LOCALAPPDATA"%string q) by (done || by left).
        by rewrite Hacc.
      * by rewrite Hacc.
    + assert (∀ n, n ∈ ["LOCALAPPDATA"; "PROGRAMFILES"]%string →
                   ∀ q, process_env n = Some q →
                        accessSync (path_join [q; edge_suffix edgeDirName]) = false)
        as H by (intros n Hn q Hq; by apply (Hearlier n q)).
      destruct (process_env "LOCALAPPDATA") as [q1|] eqn:E1;
        destruct (process_env "PROGRAMFILES") as [q2|] eqn:E2;
        rewrite Hp; cbn [from_option getEdgeExe_loop];
        rewrite ?(H "LOCALAPPDATA"%string (list_elem_of_here _ _) q1 E1),
                ?(H "PROGRAMFILES"%string
                    (list_elem_of_further _ _ _ (list_elem_of_here _ _)) q2 E2);
        by rewrite Hacc.
    + by destruct earlier.
Qed.

Lemma getEdgeExe_first_on_disk_witness :
  let process_env (name : string) :=
    if bool_decide (name = "PROGRAMFILES") then Some (js "C:\Program Files")
    else if bool_decide (name = "PROGRAMFILES(X86)") then Some (js "C:\Program Files (x86)")
    else None in
  let path_join (parts : list jsstring) : jsstring := join [backslash] parts in
  getEdgeExe Win32 process_env path_join (λ _, true) (js "Edge")
  = JStr (js "C:\Program Files\Microsoft\Edge\Application\msedge.exe").
Proof.
  cbv zeta.
  refine (proj2 (getEdgeExe_first_on_disk Win32 _ _ (λ _, true) (js "Edge")) eq_refl
            ["LOCALAPPDATA"%string] "PROGRAMFILES"%string ["PROGRAMFILES(X86)"%string]
            (js "C:\Program Files") eq_refl eq_refl eq_refl _).
  intros n q Hn. apply list_elem_of_singleton in Hn as ->. discriminate.
Defined.

(** X15.  On Windows, when no candidate of a variable that is set is on
    disk, [getEdgeExe] returns the candidate of the last of the three
    variables that is set, without having found it; when none of the three
    is set it returns [undefined]. *)
Theorem getEdgeExe_last_candidate
  (process_env : string → option jsstring)
  (path_join : list jsstring → jsstring) (accessSync : jsstring → bool)
  (edgeDirName : jsstring) :
  let names := ["LOCALAPPDATA"; "PROGRAMFILES"; "PROGRAMFILES(X86)"]%string in
  let candidate p := path_join [p; edge_suffix edgeDirName] in
  (∀ n q, n ∈ names → process_env n = Some q → accessSync (candidate q) = false) →
  getEdgeExe Win32 process_env path_join accessSync edgeDirName
  = match last (omap process_env names) with
    | Some p => JStr (candidate p)
    | None => JUndefined
    end.
Proof.
  cbv zeta. intros H. unfold getEdgeExe. rewrite getEdgeExe_loop_none.
  - unfold env. cbn [omap list_omap].
    destruct (process_env "LOCALAPPDATA"), (process_env "PROGRAMFILES"),
      (process_env "PROGRAMFILES(X86)"); reflexivity.
  - intros p Hp. rewrite !elem_of_cons in Hp. unfold env in Hp.
    destruct Hp as [Hp|[Hp|[Hp|Hp]]]; [| | |by apply elem_of_nil in Hp].
    + destruct (process_env "LOCALAPPDATA") as [q|] eqn:E; [|done].
      injection Hp as ->. apply (H "LOCALAPPDATA"%string); [|done]. by left.
    + destruct (process_env "PROGRAMFILES") as [q|] eqn:E; [|done].
      injection Hp as ->. apply (H "PROGRAMFILES"%string); [|done]. right. by left.
    + destruct (process_env "PROGRAMFILES(X86)") as [q|] eqn:E; [|done].
      injection Hp as ->. apply (H "PROGRAMFILES(X86)"%string); [|done].
      right. right. by left.
Qed.

Lemma getEdgeExe_last_candidate_witness :
  let process_env (name : string) :=
    if bool_decide (name = "PROGRAMFILES") then Some (js "C:\Program Files") else None in
  getEdgeExe Win32 process_env (join [backslash]) (λ _, false) (js "Edge")
  = JStr (js "C:\Program Files\Microsoft\Edge\Application\msedge.exe").
Proof.
  cbv zeta.
  refine (getEdgeExe_last_candidate _ (join [backslash]) (λ _, false) (js "Edge") _).
  reflexivity.
Defined.

(** ** Splitting and escaping the Windows command *)

Lemma split_on_nonempty sep s : split_on sep s ≠ [].
Proof.
  destruct s as [|c s]; simpl; [done|].
  destruct (c =? sep)%N; [done|]. by destruct (split_on sep s).
Qed.

Lemma join_cons sep p q rest :
  join sep (p :: q :: rest) = p ++ sep ++ join sep (q :: rest).
Proof. done. Qed.

Lemma join_split sep s : join [sep] (split_on sep s) = s.
Proof.
  induction s as [|c s IH]; [done|]. cbn [split_on].
  pose proof (split_on_nonempty sep s) as Hne.
  destruct (N.eqb_spec c sep) as [->|Hc].
  - destruct (split_on sep s) as [|q rest]; [done|].
    rewrite join_cons, IH. done.
  - destruct (split_on sep s) as [|q rest]; [done|].
    destruct rest as [|q' rest]; [simpl in *; by rewrite IH|].
    rewrite join_cons. rewrite join_cons in IH. by rewrite <- IH.
Qed.

Lemma split_on_pieces sep s : Forall (λ piece, sep ∉ piece) (split_on sep s).
Proof.
  induction s as [|c s IH]; cbn [split_on].
  - constructor; [apply not_elem_of_nil|constructor].
  - destruct (N.eqb_spec c sep) as [->|Hc].
    + constructor; [apply not_elem_of_nil|done].
    + destruct (split_on sep s) as [|q rest].
      * constructor; [|constructor]. intros H.
        apply list_elem_of_singleton in H. done.
      * inversion IH as [|? ? Hq Hrest]; subst. constructor; [|done].
        intros H. apply elem_of_cons in H as [H|H]; [done|by apply Hq].
Qed.

Lemma split_on_no_sep sep s : sep ∉ s → split_on sep s = [s].
Proof.
  induction s as [|c s IH]; [done|]. intros H. cbn [split_on].
  destruct (N.eqb_spec c sep) as [->|Hc]; [exfalso; apply H; by left|].
  rewrite IH; [done|]. intros Hin. apply H. by right.
Qed.

Lemma split_on_cons_piece sep p s :
  sep ∉ p → split_on sep (p ++ sep :: s) = p :: split_on sep s.
Proof.
  induction p as [|c p IH]; intros H; cbn [app split_on].
  - by rewrite N.eqb_refl.
  - destruct (N.eqb_spec c sep) as [->|Hc]; [exfalso; apply H; by left|].
    rewrite IH; [done|]. intros Hin. apply H. by right.
Qed.

(** X16.  Splitting a string at a separator and joining the pieces with it
    gives the string back; no piece holds the separator and there is always
    at least one piece.  The other way round, joining pieces that hold no
    separator and splitting the result gives the pieces back. *)
Theorem split_join_round_trip (sep : N) :
  (∀ s, join [sep] (split_on sep s) = s
        ∧ split_on sep s ≠ []
        ∧ Forall (λ piece, sep ∉ piece) (split_on sep s))
  ∧ (∀ parts, parts ≠ [] → Forall (λ piece, sep ∉ piece) parts →
              split_on sep (join [sep] parts) = parts).
Proof.
  split.
  - intros s. split; [apply join_split|].
    split; [apply split_on_nonempty|apply split_on_pieces].
  - intros parts Hne H. induction H as [|p parts Hp Hparts IH]; [done|].
    destruct parts as [|q rest].
    + simpl. by apply split_on_no_sep.
    + rewrite join_cons. cbn [app].
      rewrite split_on_cons_piece by done. by rewrite IH.
Qed.

Lemma split_join_round_trip_witness :
  split_on colon (join [colon] [js "/usr/bin"; []; js "/mnt/c/Windows"])
  = [js "/usr/bin"; []; js "/mnt/c/Windows"].
Proof.
  apply (proj2 (split_join_round_trip colon)); [done|].
  repeat constructor; vm_compute; intros H;
    repeat (apply elem_of_cons in H as [H|H]; [discriminate H|]);
    by apply elem_of_nil in H.
Defined.

Lemma join_snoc sep parts last_part :
  parts ≠ [] →
  join sep (parts ++ [last_part]) = join sep parts ++ sep ++ last_part.
Proof.
  induction parts as [|p parts IH]; [done|]. intros _.
  destruct parts as [|q rest]; [done|].
  cbn [app]. rewrite !join_cons. cbn [app] in IH. rewrite IH by done.
  by rewrite <- !app_assoc.
Qed.

(** X17.  [useWindowsWSL] cuts the Windows command at its last slash: the
    executable holds no slash, and the directory that is escaped, a slash
    and the executable make up the command again.  A command without a slash
    is all executable, with an empty directory. *)
Theorem commandPrepare_cuts_at_last_slash (win32 : jsstring) :
  let executable := (commandPrepare win32).2 in
  ¬ (slash ∈ executable)
  ∧ ∃ dir, (commandPrepare win32).1 = escape_for_shell dir
           ∧ (slash ∈ win32 → win32 = dir ++ [slash] ++ executable)
           ∧ (¬ (slash ∈ win32) → dir = [] ∧ executable = win32).
Proof.
  cbv zeta. unfold commandPrepare. cbn [fst snd].
  pose proof (split_on_nonempty slash win32) as Hne.
  pose proof (split_on_pieces slash win32) as Hpieces.
  pose proof (join_split slash win32) as Hjoin.
  destruct (@exists_last _ (split_on slash win32) Hne) as (parts & exe & E).
  rewrite E in *. rewrite removelast_last, last_last.
  apply Forall_app in Hpieces as [Hparts Hexe].
  split; [by inversion Hexe|].
  exists (join [slash] parts). split; [done|]. split.
  - intros Hin. destruct parts as [|p parts].
    + exfalso. simpl in Hjoin. subst exe. by inversion Hexe.
    + by rewrite join_snoc in Hjoin.
  - intros Hno. rewrite split_on_no_sep in E by done.
    destruct parts as [|p parts]; [by injection E as <-|].
    destruct parts; discriminate E.
Qed.

Lemma commandPrepare_cuts_at_last_slash_witness :
  let win32 := js "/mnt/c/Program Files (x86)/Microsoft/Edge/Application/msedge.exe" in
  ∃ dir, win32 = dir ++ [slash] ++ (commandPrepare win32).2.
Proof.
  cbv zeta.
  destruct (commandPrepare_cuts_at_last_slash
              (js "/mnt/c/Program Files (x86)/Microsoft/Edge/Application/msedge.exe"))
    as (_ & dir & _ & H & _).
  exists dir. apply H. vm_compute. constructor.
Defined.

Lemma replace_all_app class rep a b :
  replace_all class rep (a ++ b) = replace_all class rep a ++ replace_all class rep b.
Proof. apply flat_map_app. Qed.

Lemma escape_for_shell_units s : escape_for_shell s = flat_map escape_unit s.
Proof.
  induction s as [|c s IH]; [done|].
  change (c :: s) with ([c] ++ s). unfold escape_for_shell in *.
  rewrite !replace_all_app, flat_map_app, IH. f_equal.
  unfold escape_unit, replace_all. cbn [flat_map app].
  destruct (is_space c) eqn:Hs; [done|].
  cbn [flat_map app]. destruct (c =? open_paren)%N eqn:Ho; [done|].
  cbn [flat_map app]. by destruct (c =? close_paren)%N.
Qed.

Lemma guarded_units after_backslash s :
  guarded after_backslash (flat_map escape_unit s) = true.
Proof.
  revert after_backslash. induction s as [|c s IH]; intros ab; [done|].
  cbn [flat_map]. unfold escape_unit at 1.
  destruct (is_space c) eqn:Hs; [cbn [app guarded]; by rewrite IH|].
  destruct (c =? open_paren)%N eqn:Ho; [cbn [app guarded]; by rewrite IH|].
  destruct (c =? close_paren)%N eqn:Hc; [cbn [app guarded]; by rewrite IH|].
  cbn [app guarded]. unfold shell_special. rewrite Hs, Ho, Hc, IH. done.
Qed.

(** X18.  In the directory [useWindowsWSL] hands to the shell every white
    space and every parenthesis comes right after a backslash; a directory
    without such code units is left as it is, and otherwise the result is
    longer by one code unit for each of them.  White space of any kind
    comes out as a space. *)
Theorem escape_for_shell_guards (s : jsstring) :
  guarded false (escape_for_shell s) = true
  ∧ (Forall (λ c, shell_special c = false) s → escape_for_shell s = s)
  ∧ length (escape_for_shell s) = length s + length (List.filter shell_special s)
  ∧ (∀ c, c ∈ escape_for_shell s → is_space c = true → c = 32%N).
Proof.
  rewrite escape_for_shell_units. split; [apply guarded_units|]. split; [|split].
  - induction 1 as [|c s Hc _ IH]; [done|]. cbn [flat_map]. rewrite IH.
    unfold shell_special in Hc. apply orb_false_iff in Hc as [Hc H2].
    apply orb_false_iff in Hc as [H0 H1]. unfold escape_unit. by rewrite H0, H1, H2.
  - induction s as [|c s IH]; [done|]. cbn [flat_map List.filter].
    rewrite length_app, IH. unfold escape_unit, shell_special.
    destruct (is_space c); [simpl; lia|].
    destruct (c =? open_paren)%N; [simpl; lia|].
    destruct (c =? close_paren)%N; simpl; lia.
  - intros c Hin Hc. apply list_elem_of_In, in_flat_map in Hin as (d & _ & Hin).
    unfold escape_unit in Hin.
    destruct (is_space d) eqn:Hd;
      [|destruct (d =? open_paren)%N; [|destruct (d =? close_paren)%N]];
      cbn [In] in Hin;
      repeat match goal with
             | H : _ ∨ _ |- _ => destruct H as [H|H]
             | H : False |- _ => destruct H
             end; subst; try done; congruence.
Qed.

Lemma escape_for_shell_guards_witness :
  escape_for_shell (js "/mnt/c/Microsoft/Edge") = js "/mnt/c/Microsoft/Edge".
Proof.
  apply (escape_for_shell_guards (js "/mnt/c/Microsoft/Edge")).
  repeat constructor.
Defined.

Example escape_program_files :
  escape_for_shell (js "/mnt/c/Program Files (x86)/Microsoft")
  = js "/mnt/c/Program\ Files\ \(x86\)/Microsoft".
Proof. reflexivity. Qed.

(** ** The WSL bridge *)

Lemma existsb_eqb_elem d (drives : list N) :
  existsb (N.eqb d) drives = true ↔ d ∈ drives.
Proof.
  rewrite existsb_exists. split.
  - intros (x & Hin & E). apply N.eqb_eq in E as ->. by apply list_elem_of_In.
  - intros Hin. exists d. split; [by apply list_elem_of_In|apply N.eqb_refl].
Qed.

Lemma collect_drives_spec existsSync wslpath_w elems drives :
  NoDup drives →
  NoDup (collect_drives existsSync wslpath_w elems drives)
  ∧ ∀ d, d ∈ collect_drives existsSync wslpath_w elems drives
         ↔ d ∈ drives
           ∨ ∃ pathElem, pathElem ∈ elems ∧ existsSync pathElem = true
                         ∧ drive_of (wslpath_w pathElem) = Some d.
Proof.
  revert drives. induction elems as [|e elems IH]; intros drives Hnd.
  - split; [done|]. intros d. split; [by left|].
    intros [?|(x & Hx & _)]; [done|]. by apply elem_of_nil in Hx.
  - cbn [collect_drives].
    assert (∀ (drives : list N) d,
              (d ∈ drives ∨ ∃ x, x ∈ elems ∧ existsSync x = true
                                 ∧ drive_of (wslpath_w x) = Some d) →
              d ∈ drives ∨ ∃ x, x ∈ e :: elems ∧ existsSync x = true
                                ∧ drive_of (wslpath_w x) = Some d) as Hweak.
    { intros ds d [?|(x & Hx & ?)]; [by left|]. right. exists x. split; [by right|done]. }
    destruct (existsSync e) eqn:He.
    + destruct (drive_of (wslpath_w e)) as [d0|] eqn:Hd.
      * destruct (existsb (N.eqb d0) drives) eqn:Hex.
        -- destruct (IH drives Hnd) as [H1 H2]. split; [done|]. intros d.
           rewrite H2. split; [by apply Hweak|].
           intros [?|(x & Hx & Hxe & Hxd)]; [by left|].
           apply elem_of_cons in Hx as [->|Hx]; [|right; eauto].
           left. rewrite Hd in Hxd. injection Hxd as <-.
           by apply existsb_eqb_elem.
        -- assert (NoDup (drives ++ [d0])) as Hnd'.
           { apply NoDup_app. split; [done|]. split; [|apply NoDup_singleton].
             intros x Hx Hx'. apply list_elem_of_singleton in Hx' as ->.
             apply existsb_eqb_elem in Hx. congruence. }
           destruct (IH _ Hnd') as [H1 H2]. split; [done|]. intros d.
           rewrite H2, elem_of_app, list_elem_of_singleton. split.
           ++ intros [[?| ->]|(x & Hx & ?)]; [by left| |].
              ** right. exists e. split; [by left|done].
              ** right. exists x. split; [by right|done].
           ++ intros [?|(x & Hx & Hxe & Hxd)]; [left; by left|].
              apply elem_of_cons in Hx as [->|Hx]; [|right; eauto].
              left. right. rewrite Hd in Hxd. by injection Hxd.
      * destruct (IH drives Hnd) as [H1 H2]. split; [done|]. intros d.
        rewrite H2. split; [by apply Hweak|].
        intros [?|(x & Hx & Hxe & Hxd)]; [by left|].
        apply elem_of_cons in Hx as [->|Hx]; [congruence|right; eauto].
    + destruct (IH drives Hnd) as [H1 H2]. split; [done|]. intros d.
      rewrite H2. split; [by apply Hweak|].
      intros [?|(x & Hx & Hxe & Hxd)]; [by left|].
      apply elem_of_cons in Hx as [->|Hx]; [congruence|right; eauto].
Qed.

Lemma drive_of_letter windowsPath d :
  drive_of windowsPath = Some d →
  is_drive_letter d = true ∧ ∃ rest, windowsPath = d :: colon :: backslash :: rest.
Proof.
  unfold drive_of. destruct windowsPath as [|c [|c1 [|c2 rest]]]; try done.
  destruct (is_drive_letter c) eqn:E; [|done].
  destruct (N.eqb_spec c1 colon) as [->|]; [|done].
  destruct (N.eqb_spec c2 backslash) as [->|]; [|done].
  intros [= <-]. eauto.
Qed.

(** X19.  [getAllPrefixesWsl] finds the drives of the directories of [PATH]
    that exist: each drive once, each a letter that opens the Windows form
    of such a directory before a colon and a backslash.  It returns the
    translated [Program Files] of every drive, then the translated
    [Program Files (x86)] of every drive: twice as many prefixes as
    drives, and none when no directory of [PATH] maps to a drive. *)
Theorem getAllPrefixesWsl_drives
  (existsSync : jsstring → bool) (wslpath_w wslpath_u : jsstring → jsstring)
  (PATH : jsstring) :
  ∃ drives,
    NoDup drives
    ∧ (∀ d, d ∈ drives
            ↔ ∃ pathElem rest,
                pathElem ∈ split_on colon PATH ∧ existsSync pathElem = true
                ∧ is_drive_letter d = true
                ∧ wslpath_w pathElem = d :: colon :: backslash :: rest)
    ∧ getAllPrefixesWsl existsSync wslpath_w wslpath_u PATH
      = map (λ d, trim (wslpath_u (d :: js ":\Program Files"))) drives
        ++ map (λ d, trim (wslpath_u (d :: js ":\Program Files (x86)"))) drives
    ∧ length (getAllPrefixesWsl existsSync wslpath_w wslpath_u PATH)
      = 2 * length drives.
Proof.
  exists (collect_drives existsSync wslpath_w (split_on colon PATH) []).
  destruct (collect_drives_spec existsSync wslpath_w (split_on colon PATH) []
              NoDup_nil_2) as [Hnd Hin].
  split; [done|]. split; [|split].
  - intros d. rewrite Hin. split.
    + intros [H|(x & Hx & He & Hd)]; [by apply elem_of_nil in H|].
      apply drive_of_letter in Hd as [Hl [rest Hr]]. eauto 8.
    + intros (x & rest & Hx & He & Hl & Hr). right. exists x.
      split; [done|]. split; [done|].
      unfold drive_of. rewrite Hr, Hl. by rewrite !N.eqb_refl.
  - unfold getAllPrefixesWsl, program_files. cbn [flat_map]. by rewrite app_nil_r.
  - unfold getAllPrefixesWsl, program_files. cbn [flat_map].
    rewrite app_nil_r, length_app, !length_map. lia.
Qed.

Lemma find_app {A} (f : A → bool) (a b : list A) :
  find f (a ++ b) = match find f a with
                    | Some x => Some x
                    | None => find f b
                    end.
Proof.
  induction a as [|x a IH]; [done|]. cbn [app find]. by destruct (f x).
Qed.

Lemma search_dirs_find existsSync path_join prefix dirs :
  search_dirs existsSync path_join prefix dirs
  = find existsSync (map (edge_candidate path_join prefix) dirs).
Proof.
  induction dirs as [|d dirs IH]; [done|]. cbn [search_dirs map find].
  by destruct (existsSync _).
Qed.

Lemma search_prefixes_find existsSync path_join prefixes dirs :
  search_prefixes existsSync path_join prefixes dirs
  = find existsSync
      (flat_map (λ prefix, map (edge_candidate path_join prefix) dirs) prefixes).
Proof.
  induction prefixes as [|p prefixes IH]; [done|].
  cbn [search_prefixes flat_map]. rewrite find_app, search_dirs_find, IH. done.
Qed.

(** The run of [getAllPrefixesWsl] and the value it returns: when the
    [wslpath] calls answer, the loops compute what [collect_drives] and
    [getAllPrefixesWsl] describe. *)
Lemma collect_drives_run_answers existsSync execSync wslpath_w elems drives :
  (∀ e, e ∈ elems → existsSync e = true →
        execSync (wslpath_w_command e) = Some (wslpath_w e)) →
  collect_drives_run existsSync execSync elems drives
  = Return (collect_drives existsSync wslpath_w elems drives).
Proof.
  revert drives. induction elems as [|e elems IH]; intros drives H; [done|].
  assert (∀ e', e' ∈ elems → existsSync e' = true →
                execSync (wslpath_w_command e') = Some (wslpath_w e')) as H'
    by (intros e' He'; apply H; by right).
  cbn [collect_drives_run collect_drives].
  destruct (existsSync e) eqn:E; [|by apply IH].
  rewrite (H e) by (done || by left).
  destruct (drive_of (wslpath_w e)) as [d|]; [|by apply IH].
  destruct (existsb (N.eqb d) drives); by apply IH.
Qed.

Lemma translate_drives_answers execSync wslpath_u prefix drives result :
  (∀ d, d ∈ drives →
        execSync (wslpath_command d prefix) = Some (wslpath_u (d :: js ":\" ++ prefix))) →
  translate_drives execSync prefix drives result
  = Return (result ++ map (λ d, trim (wslpath_u (d :: js ":\" ++ prefix))) drives).
Proof.
  revert result. induction drives as [|d drives IH]; intros result H.
  - by rewrite app_nil_r.
  - cbn [translate_drives map]. rewrite (H d) by left.
    rewrite IH by (intros d' Hd'; apply H; by right).
    by rewrite <- app_assoc.
Qed.

Lemma getAllPrefixesWsl_run_answers
  process_env existsSync execSync wslpath_w wslpath_u PATH :
  process_env "PATH"%string = Some PATH →
  (∀ e, e ∈ split_on colon PATH → existsSync e = true →
        execSync (wslpath_w_command e) = Some (wslpath_w e)) →
  (∀ d prefix, execSync (wslpath_command d prefix)
               = Some (wslpath_u (d :: js ":\" ++ prefix))) →
  getAllPrefixesWsl_run process_env existsSync execSync
  = Return (getAllPrefixesWsl existsSync wslpath_w wslpath_u PATH).
Proof.
  intros HP Hw Hu. unfold getAllPrefixesWsl_run, getAllPrefixesWsl. rewrite HP.
  rewrite (collect_drives_run_answers _ _ wslpath_w) by done.
  unfold program_files. cbn [translate_prefixes flat_map].
  rewrite (translate_drives_answers _ wslpath_u) by (intros; apply Hu).
  rewrite (translate_drives_answers _ wslpath_u) by (intros; apply Hu).
  by rewrite app_nil_r.
Qed.

(** A [wslpath -w] call that fails on a directory of [PATH] that exists
    ends the first loop. *)
Lemma collect_drives_run_throws existsSync execSync elems drives pathElem :
  pathElem ∈ elems → existsSync pathElem = true →
  execSync (wslpath_w_command pathElem) = None →
  collect_drives_run existsSync execSync elems drives = Raise ExecError.
Proof.
  intros Hin He Hx. revert drives.
  induction elems as [|e elems IH]; intros drives; [by apply elem_of_nil in Hin|].
  cbn [collect_drives_run].
  apply elem_of_cons in Hin as [<-|Hin].
  - by rewrite He, Hx.
  - destruct (existsSync e); [|by apply IH].
    destruct (execSync (wslpath_w_command e)) as [w|]; [|done].
    destruct (drive_of w) as [d|]; [|by apply IH].
    destruct (existsb (N.eqb d) drives); by apply IH.
Qed.

Lemma search_prefixes_no_name existsSync path_join prefixes :
  search_prefixes existsSync path_join prefixes [] = None.
Proof. induction prefixes as [|p prefixes IH]; [done|exact IH]. Qed.

(** X20.  Outside WSL [getEdgeExeWsl] returns [null].  Under WSL it first
    asks [getAllPrefixesWsl] for the prefixes and throws what that call
    throws: a [TypeError] when [PATH] is not set, the error of [execSync]
    when [wslpath -w] fails on a directory of [PATH] that exists.  When the
    prefixes are computed it walks them in their order and, for each, the
    directory names in theirs, and returns the first candidate that exists;
    when none exists it returns the path under [/mnt/c/Program Files/] for
    the first name without checking it, and it throws when it was given no
    name.  The prefixes are those of the [wslpath] outputs when every call
    answers. *)
Theorem getEdgeExeWsl_first_candidate
  (isWsl : bool) (process_env : string → option jsstring)
  (existsSync : jsstring → bool) (path_join : list jsstring → jsstring)
  (execSync : jsstring → option jsstring) (edgeDirNames : list jsstring) :
  let run := getAllPrefixesWsl_run process_env existsSync execSync in
  let result := getEdgeExeWsl isWsl process_env existsSync path_join execSync
                  edgeDirNames in
  (isWsl = false → result = Return JNull)
  ∧ (isWsl = true → ∀ e, run = Raise e → result = Raise e)
  ∧ (isWsl = true → process_env "PATH"%string = None → result = Raise TypeError)
  ∧ (isWsl = true → ∀ PATH pathElem,
       process_env "PATH"%string = Some PATH →
       pathElem ∈ split_on colon PATH → existsSync pathElem = true →
       execSync (js "wslpath -w " ++ [double_quote] ++ pathElem ++ [double_quote])
       = None →
       result = Raise ExecError)
  ∧ (isWsl = true → ∀ prefixes, run = Return prefixes →
       let candidates :=
         flat_map (λ prefix, map (edge_candidate path_join prefix) edgeDirNames)
           prefixes in
       result = match find existsSync candidates with
                | Some candidate => Return (JStr candidate)
                | None =>
                    match edgeDirNames with
                    | dir :: _ =>
                        Return (JStr (path_join [js "/mnt/c/Program Files/";
                                                 js "Microsoft"; dir;
                                                 js "Application"; js "msedge.exe"]))
                    | [] => Raise TypeError
                    end
                end
       ∧ (edgeDirNames ≠ [] → ∃ p, result = Return (JStr p))
       ∧ (edgeDirNames = [] → result = Raise TypeError))
  ∧ (∀ PATH wslpath_w wslpath_u,
       process_env "PATH"%string = Some PATH →
       (∀ e, e ∈ split_on colon PATH → existsSync e = true →
             execSync (js "wslpath -w " ++ [double_quote] ++ e ++ [double_quote])
             = Some (wslpath_w e)) →
       (∀ d prefix,
          execSync (js "wslpath " ++ [double_quote] ++ d :: js ":\" ++ prefix
                    ++ [double_quote])
          = Some (wslpath_u (d :: js ":\" ++ prefix))) →
       run = Return (getAllPrefixesWsl existsSync wslpath_w wslpath_u PATH)).
Proof.
  cbv zeta. unfold getEdgeExeWsl.
  split; [by intros ->|]. split; [by intros -> e ->|]. split; [|split; [|split]].
  - intros -> HP. cbn [negb]. unfold getAllPrefixesWsl_run. by rewrite HP.
  - intros -> PATH pathElem HP Hin He Hx. cbn [negb].
    unfold getAllPrefixesWsl_run. rewrite HP.
    by rewrite (collect_drives_run_throws _ _ _ _ pathElem).
  - intros -> prefixes ->. cbn [negb]. rewrite search_prefixes_find.
    split; [done|]. split.
    + intros Hne. destruct (find _ _) as [c|]; [eauto|].
      destruct edgeDirNames; [done|eauto].
    + intros ->. rewrite <- search_prefixes_find.
      by rewrite search_prefixes_no_name.
  - intros PATH wslpath_w wslpath_u. apply getAllPrefixesWsl_run_answers.
Qed.

Lemma getEdgeExeWsl_first_candidate_witness :
  let process_env (name : string) :=
    if bool_decide (name = "PATH"%string) then Some (js "/usr/bin:/mnt/d/tools")
    else None in
  let existsSync (p : jsstring) :=
    bool_decide (p = js "/mnt/d/tools")
    || bool_decide (p = js "/mnt/d/Program Files (x86)/Microsoft/Edge/Application/msedge.exe") in
  let execSync (command : jsstring) :=
    if bool_decide (command = js "wslpath -w " ++ [double_quote] ++ js "/mnt/d/tools"
                              ++ [double_quote])
    then Some (js "D:\tools" ++ [10%N])
    else if bool_decide (command = js "wslpath " ++ [double_quote]
                                   ++ js "D:\Program Files" ++ [double_quote])
    then Some (js "/mnt/d/Program Files" ++ [10%N])
    else if bool_decide (command = js "wslpath " ++ [double_quote]
                                   ++ js "D:\Program Files (x86)" ++ [double_quote])
    then Some (js "/mnt/d/Program Files (x86)" ++ [10%N])
    else None in
  getEdgeExeWsl true process_env existsSync (join [slash]) execSync [js "Edge"]
  = Return (JStr (js "/mnt/d/Program Files (x86)/Microsoft/Edge/Application/msedge.exe")).
Proof.
  intros process_env existsSync execSync.
  refine (proj1 (proj1 (proj2 (proj2 (proj2 (proj2
            (getEdgeExeWsl_first_candidate true process_env existsSync (join [slash])
               execSync [js "Edge"]))))) eq_refl
            [js "/mnt/d/Program Files"; js "/mnt/d/Program Files (x86)"] _)).
  by vm_compute.
Defined.

(** X21.  Of the three entries of a prototype's [DEFAULT_CMD] only those of
    the running platform can hold a command.  On macOS the Linux and the
    Windows entry are [null] and the macOS entry is the path under [HOME]
    when [HOME] is set and that path is on disk, and the default path
    otherwise; on Windows the Linux and the macOS entry are [null] and the
    Windows entry is what [getEdgeExe] finds; on Linux the macOS entry is
    [null], the Linux entry is the variant's command when [which] resolves
    it and [undefined] otherwise, and the Windows entry is [null] outside
    WSL; under WSL loading the module throws what [getAllPrefixesWsl]
    throws, and the Windows entry is a string when the prefixes are
    computed. *)
Theorem DEFAULT_CMD_by_platform
  (isWsl : bool) (process_platform : platform)
  (process_env : string → option jsstring)
  (existsSync accessSync : jsstring → bool)
  (path_join : list jsstring → jsstring) (which : jsstring → option jsstring)
  (execSync : jsstring → option jsstring) (v : variant) :
  let cmd := DEFAULT_CMD isWsl process_platform process_env existsSync accessSync
               path_join which execSync v in
  let run := getAllPrefixesWsl_run process_env existsSync execSync in
  (process_platform = Darwin → isWsl = false →
   cmd_linux cmd = JNull ∧ cmd_win32 cmd = Return JNull
   ∧ (∀ home, process_env "HOME"%string = Some home →
              accessSync (path_join [home; darwin_path v]) = true →
              cmd_darwin cmd = JStr (path_join [home; darwin_path v]))
   ∧ (∀ home, process_env "HOME"%string = Some home →
              accessSync (path_join [home; darwin_path v]) = false →
              cmd_darwin cmd = JStr (darwin_path v))
   ∧ (process_env "HOME"%string = None → cmd_darwin cmd = JStr (darwin_path v)))
  ∧ (process_platform = Win32 → isWsl = false →
     cmd_linux cmd = JNull ∧ cmd_darwin cmd = JNull
     ∧ cmd_win32 cmd
       = Return (getEdgeExe Win32 process_env path_join accessSync (windows_dir v)))
  ∧ (process_platform = Linux →
     cmd_darwin cmd = JNull
     ∧ (resolved which (linux_command v) → cmd_linux cmd = JStr (linux_command v))
     ∧ (¬ resolved which (linux_command v) → cmd_linux cmd = JUndefined)
     ∧ (isWsl = false → cmd_win32 cmd = Return JNull)
     ∧ (isWsl = true → ∀ e, run = Raise e → cmd_win32 cmd = Raise e)
     ∧ (isWsl = true → ∀ prefixes, run = Return prefixes →
        ∃ p, cmd_win32 cmd = Return (JStr p))).
Proof.
  cbv zeta. unfold DEFAULT_CMD. cbn [cmd_linux cmd_darwin cmd_win32].
  split; [|split].
  - intros -> ->. split; [done|]. split; [done|].
    unfold getEdgeDarwin. split; [|split].
    + by intros home -> ->.
    + by intros home -> ->.
    + by intros ->.
  - by intros -> ->.
  - intros ->. split; [done|]. unfold getBin. cbn [getBin_loop].
    split; [|split; [|split; [|split]]].
    + intros (p & Hp & Hne). rewrite Hp. by destruct p.
    + intros Hn. destruct (which (linux_command v)) as [[|c p]|] eqn:E; [done| |done].
      exfalso. apply Hn. by exists (c :: p).
    + by intros ->.
    + intros -> e He. unfold getEdgeExeWsl. cbn [negb]. by rewrite He.
    + intros -> prefixes Hp. unfold getEdgeExeWsl. cbn [negb]. rewrite Hp.
      destruct (search_prefixes _ _ _ _); eauto.
Qed.

Lemma DEFAULT_CMD_by_platform_witness :
  let process_env (name : string) :=
    if bool_decide (name = "HOME"%string) then Some (js "/Users/u") else None in
  cmd_darwin
    (DEFAULT_CMD false Darwin process_env (λ _, false) (λ _, true)
       (λ parts, concat parts) (λ _, None) (λ _, None) EdgeBeta)
  = JStr (js "/Users/u/Applications/Microsoft Edge Beta.app/Contents/MacOS/Microsoft Edge Beta").
Proof.
  intros process_env.
  exact (proj1 (proj2 (proj2 (proj1
           (DEFAULT_CMD_by_platform false Darwin process_env (λ _, false) (λ _, true)
              (λ parts, concat parts) (λ _, None) (λ _, None) EdgeBeta)
           eq_refl eq_refl))) (js "/Users/u") eq_refl eq_refl).
Defined.

Lemma trim_ends s :
  (∀ c r, trim s = c :: r → is_space c = false)
  ∧ (∀ c r, trim s = r ++ [c] → is_space c = false).
Proof.
  unfold trim.
  set (t := drop_while is_space s).
  set (u := drop_while is_space (rev t)).
  assert (rev t = take_while is_space (rev t) ++ u) as Ht
    by (by rewrite take_drop_while).
  split; intros c r E.
  - assert (u = rev r ++ [c]) as Hu.
    { by rewrite <- (rev_involutive u), E. }
    rewrite Hu in Ht. apply (f_equal (@rev N)) in Ht.
    rewrite rev_involutive, !rev_app_distr in Ht. cbn [rev app] in Ht.
    by apply (drop_while_head _ _ _ _ Ht).
  - assert (u = c :: rev r) as Hu.
    { rewrite <- (rev_involutive u), E. by rewrite rev_app_distr. }
    by apply (drop_while_head _ _ _ _ Hu).
Qed.

(** X22.  No prefix that [getAllPrefixesWsl] returns begins or ends with
    white space: the line end of the [wslpath] output is trimmed away. *)
Theorem getAllPrefixesWsl_trimmed
  (existsSync : jsstring → bool) (wslpath_w wslpath_u : jsstring → jsstring)
  (PATH : jsstring) :
  Forall (λ prefix,
            (∀ c r, prefix = c :: r → is_space c = false)
            ∧ (∀ c r, prefix = r ++ [c] → is_space c = false))
    (getAllPrefixesWsl existsSync wslpath_w wslpath_u PATH).
Proof.
  unfold getAllPrefixesWsl. apply Forall_forall. intros prefix Hin.
  apply list_elem_of_In, in_flat_map in Hin as (pf & _ & Hin).
  apply in_map_iff in Hin as (d & <- & _). apply trim_ends.
Qed.

Lemma foldl_augment_sanitized flags acc :
  Forall (λ f, sanitize_flag (sanitize_flag f) = sanitize_flag f) flags →
  foldl augment acc (map sanitize_flag flags) = foldl augment acc flags.
Proof.
  intros H. revert acc. induction H as [|f flags Hf _ IH]; intros acc; [done|].
  cbn [map foldl]. rewrite IH. f_equal. unfold augment.
  unfold sanitize_flag in *. destruct (isJSFlags f) eqn:E; [|by rewrite E].
  rewrite (isJSFlags_sanitize f E) in *. by rewrite Hf.
Qed.

(** X23.  When one pass of the sanitizer settles every user flag (a second
    pass would not change it), building the options again returns the same
    list: the options [_start] tests for [--headless] are then the options
    it spawns with.  This holds for a launcher built on the caller's own
    flag array and for one built without flags. *)
Theorem getOptions_rebuild_stable
  (isWsl : bool) (v : variant) (args_flags : option loc) (r : loc) (σ : store) :
  args_flags = Some r ∨ args_flags = None →
  Forall (λ f, sanitize_flag (sanitize_flag f) = sanitize_flag f) (deref σ r) →
  let first := getOptions isWsl v args_flags r σ in
  let second := getOptions isWsl v args_flags r first.2 in
  second.1 = first.1 ∧ deref second.2 r = deref first.2 r.
Proof.
  intros Ha Hs. cbv zeta.
  assert (map sanitize_flag (map sanitize_flag (deref σ r))
          = map sanitize_flag (deref σ r)) as Hmap.
  { rewrite map_map. apply map_ext_Forall. exact Hs. }
  split.
  - rewrite !getOptions_formula. cbv zeta. rewrite getOptions_store, deref_insert, Hmap.
    assert (canary_flag (from_option
                           (deref (<[r:=map sanitize_flag (deref σ r)]> σ)) [] args_flags)
            = canary_flag (from_option (deref σ) [] args_flags)) as ->; [|done].
    destruct Ha as [-> | ->]; [|done]. cbn [from_option].
    rewrite deref_insert. unfold canary_flag.
    by rewrite foldl_augment_sanitized.
  - by rewrite !getOptions_store, !deref_insert, Hmap.
Qed.

Lemma getOptions_rebuild_stable_witness :
  let σ : store := {[ 1%positive := [js "--js-flags='--expose-gc'"; js "--incognito"] ]} in
  let first := getOptions true EdgeCanaryHeadless (Some 1%positive) 1%positive σ in
  (getOptions true EdgeCanaryHeadless (Some 1%positive) 1%positive first.2).1 = first.1.
Proof.
  cbv zeta.
  refine (proj1 (getOptions_rebuild_stable true EdgeCanaryHeadless (Some 1%positive)
                   1%positive
                   ({[ 1%positive := [js "--js-flags='--expose-gc'"; js "--incognito"] ]}
                    : store) (or_introl eq_refl) _)).
  repeat constructor.
Defined.

(** ** The number parsed *)










(** Beyond 53 bits the number is rounded: sixteen nines give 10 to the
    power 16, as in the source. *)
Example parseInt_sixteen_nines :
  parseInt (js "9999999999999999") = 10000000000000000%N.
Proof. by vm_compute. Qed.
